(** * DynBuffer: a growable, cursor-based binary buffer

    A shallow embedding of [src/dynbuffer.js].  The class keeps three
    private fields: [#stream] (a Node.js [Buffer] over a resizable
    [ArrayBuffer] whose [maxByteLength] is [2 ** 30]), [#position] and
    [#endian].  Methods are state transformers that may throw; a throw
    keeps whatever mutation happened before it.

    The host objects are modelled from their documented behaviour
    (ECMAScript typed arrays over resizable buffers, the Node.js
    [Buffer] accessors):
    - the [Buffer] the constructor makes is built without an explicit
      length, so it follows the byte length of its [ArrayBuffer] when
      that is resized; [subarray] with an explicit end makes a view of
      fixed length over the same [ArrayBuffer];
    - an accessor first checks the value, then the offset, and throws
      without storing anything when a check fails.

    [#position] and the numeric arguments are integers ([Z]): integer
    valued JavaScript numbers and bigints.  Sums of such numbers are
    exact up to [2 ^ 53] in magnitude and rounded to the nearest double
    beyond ([JSNumber.add]).  [#endian] is one of the two documented
    values.  The two floating accessors work on [spec_float] values and
    their IEEE-754 bit patterns. *)

From Stdlib Require Import ZArith Lia Bool.
From Stdlib Require Import Strings.String Strings.Ascii Strings.Byte.
From Stdlib Require Import Floats.SpecFloat.
From stdpp Require Import base list.

Local Open Scope Z_scope.

(** ** Numbers *)

(** JavaScript numbers are binary64 values; the embedding keeps the
    integer-valued ones as [Z].  Every integer up to [2 ^ 53] in
    magnitude is a binary64 value, so a sum within that range is exact;
    a larger sum is the binary64 value nearest to the exact one, ties
    to even.  (A sum beyond the largest finite double has no integer
    value; the embedding keeps the exact sum there.) *)
Module JSNumber.

Definition MAX_SAFE : Z := 2 ^ 53.

(** The integer a finite binary64 value of integer magnitude denotes. *)
Definition toInteger (x : spec_float) (otherwise : Z) : Z :=
  match x with
  | S754_zero _ => 0
  | S754_finite s m e =>
      let n := if 0 <=? e then Z.pos m * 2 ^ e else Z.pos m / 2 ^ (- e) in
      if s then - n else n
  | _ => otherwise
  end.

(** The binary64 value nearest to an integer. *)
Definition nearest (z : Z) : Z :=
  toInteger (binary_normalize 53 1024 z 0 false) z.

(** [a + b] *)
Definition add (a b : Z) : Z :=
  let sum := a + b in
  if (- MAX_SAFE <=? sum) && (sum <=? MAX_SAFE) then sum else nearest sum.

End JSNumber.

(** ** Bytes *)

(** Storing a number into a [Uint8Array] slot keeps it modulo [2 ^ 8]. *)
Definition byte_of_Z (z : Z) : byte :=
  match Byte.of_N (Z.to_N (z mod 256)) with
  | Some b => b
  | None => x00
  end.

Definition Z_of_byte (b : byte) : Z := Z.of_N (Byte.to_N b).

(** ** The host objects: [ArrayBuffer], [Uint8Array] views and [Buffer] *)

Inductive Endian := BE | LE.

(** The errors a caller can observe.  [UnsupportedEncoding] is the
    [Error] thrown by the text methods, [CapacityExceeded] the
    [RangeError] of [ArrayBuffer.prototype.resize], [OutOfBounds] the
    offset errors of the [Buffer] accessors ([ERR_OUT_OF_RANGE] on the
    offset, [ERR_BUFFER_OUT_OF_BOUNDS]), [ValueOutOfRange] the
    [ERR_OUT_OF_RANGE] on the value, and [NotAFunction] the [TypeError]
    of calling a missing property. *)
Inductive error :=
  | UnsupportedEncoding
  | CapacityExceeded
  | OutOfBounds
  | ValueOutOfRange
  | NotAFunction.

Inductive outcome (A : Type) :=
  | Ok (a : A)
  | Throw (e : error).
Arguments Ok {A} a.
Arguments Throw {A} e.

(** [new ArrayBuffer(0, { maxByteLength: 2 ** 30 })] *)
Definition MAX_CAPACITY : Z := 2 ^ 30.

(** A view either tracks the length of its [ArrayBuffer] (a typed array
    built without an explicit length over a resizable buffer) or has the
    fixed length it was created with ([subarray] with an explicit end).
    Every view the class keeps starts at byte offset 0. *)
Inductive View :=
  | Tracking
  | Fixed (n : nat).

Record Buffer := mkBuffer {
  buffer : list byte;   (* [.buffer], the underlying ArrayBuffer *)
  window : View
}.

Module Buf.

(** [buf.length]; a fixed view that no longer fits its buffer is out
    of bounds and reports length 0. *)
Definition length (s : Buffer) : Z :=
  match window s with
  | Tracking => Z.of_nat (List.length (buffer s))
  | Fixed n =>
      if (n <=? List.length (buffer s))%nat then Z.of_nat n else 0
  end.

(** [buf[i]]: [undefined] (here [None]) outside [0 .. length - 1]. *)
Definition get (s : Buffer) (i : Z) : option byte :=
  if (0 <=? i) && (i <? length s) then buffer s !! Z.to_nat i else None.

(** [buf[i] = b]: ignored outside [0 .. length - 1]. *)
Definition set (s : Buffer) (i : Z) (b : byte) : Buffer :=
  if (0 <=? i) && (i <? length s)
  then mkBuffer (<[Z.to_nat i := b]> (buffer s)) (window s)
  else s.

(** The bytes the view exposes. *)
Definition bytes (s : Buffer) : list byte :=
  take (Z.to_nat (length s)) (buffer s).

(** Relative index of [subarray]/[slice]: negative counts from the
    end, everything is clamped to [0 .. len]. *)
Definition clamp (len k : Z) : Z :=
  if k <? 0 then Z.max (len + k) 0 else Z.min k len.

(** [buf.subarray(0, end)]: a new fixed-length view of the same
    [ArrayBuffer]. *)
Definition subarray0 (s : Buffer) (e : Z) : Buffer :=
  let startIndex := 0 in
  let endIndex := clamp (length s) e in
  mkBuffer (buffer s) (Fixed (Z.to_nat (Z.max (endIndex - startIndex) 0))).

(** The bytes exposed by [buf.subarray(b, e)]. *)
Definition subarray_bytes (s : Buffer) (b e : Z) : list byte :=
  let startIndex := clamp (length s) b in
  let endIndex := clamp (length s) e in
  take (Z.to_nat (Z.max (endIndex - startIndex) 0))
       (drop (Z.to_nat startIndex) (buffer s)).

(** [buf.buffer.resize(newLength)]: a [RangeError] when [newLength]
    is negative or above [maxByteLength]; otherwise the contents are
    kept up to [newLength] and new bytes are zero. *)
Definition resize (s : Buffer) (newLength : Z) : outcome Buffer :=
  if (newLength <? 0) || (MAX_CAPACITY <? newLength)
  then Throw CapacityExceeded
  else Ok (mkBuffer (list.resize (Z.to_nat newLength) x00 (buffer s))
                    (window s)).

(** The stems of the typed accessors: [writeInt8]/[readInt8], ... *)
Inductive fn :=
  | Int8 | UInt8 | Int16 | UInt16 | Int32 | UInt32
  | Float | Double | BigInt64 | BigUint64.

(** Bytes moved by an accessor. *)
Definition width (f : fn) : nat :=
  match f with
  | Int8 | UInt8 => 1
  | Int16 | UInt16 => 2
  | Int32 | UInt32 | Float => 4
  | Double | BigInt64 | BigUint64 => 8
  end%nat.

(** Does [buf] have the property named by the stem and the suffix?
    One-byte accessors have no [BE]/[LE] variants, the others have
    nothing else. *)
Definition has_method (f : fn) (suffix : option Endian) : bool :=
  match f, suffix with
  | (Int8 | UInt8), None => true
  | (Int8 | UInt8), Some _ => false
  | _, None => false
  | _, Some _ => true
  end.

(** Byte stores of the little-endian writers: lowest byte first,
    [value >>> 8] between two stores. *)
Fixpoint storeLE (w : nat) (v : Z) (offset : Z) (s : Buffer) : Buffer :=
  match w with
  | O => s
  | S w' => storeLE w' (Z.shiftr v 8) (offset + 1) (set s offset (byte_of_Z v))
  end.

(** Byte stores of the big-endian writers: lowest byte at the highest
    offset. *)
Fixpoint storeBE (w : nat) (v : Z) (offset : Z) (s : Buffer) : Buffer :=
  match w with
  | O => s
  | S w' =>
      storeBE w' (Z.shiftr v 8) offset
              (set s (offset + Z.of_nat w') (byte_of_Z v))
  end.

Definition byteAt (s : Buffer) (i : Z) : Z :=
  match get s i with
  | Some b => Z_of_byte b
  | None => 0
  end.

Fixpoint loadLE (w : nat) (offset : Z) (s : Buffer) : Z :=
  match w with
  | O => 0
  | S w' => byteAt s offset + 2 ^ 8 * loadLE w' (offset + 1) s
  end.

Fixpoint loadBE (w : nat) (offset : Z) (s : Buffer) : Z :=
  match w with
  | O => 0
  | S w' => byteAt s (offset + Z.of_nat w') + 2 ^ 8 * loadBE w' offset s
  end.

Definition store (e : option Endian) :=
  match e with
  | Some BE => storeBE
  | _ => storeLE
  end.

Definition load (e : option Endian) :=
  match e with
  | Some BE => loadBE
  | _ => loadLE
  end.

(** Byte [i] of a stored value, lowest first. *)
Definition octet (v : Z) (i : Z) : byte := byte_of_Z (Z.shiftr v (8 * i)).

(** The bytes of a stored value, lowest first. *)
Definition octets (w : nat) (v : Z) : list byte :=
  (fun i : nat => octet v (Z.of_nat i)) <$> seq 0 w.

(** [checkBounds]: [buf[offset]] and [buf[offset + width - 1]] must
    both be defined. *)
Definition checkBounds (s : Buffer) (offset : Z) (w : nat) : bool :=
  match get s offset, get s (offset + Z.of_nat w - 1) with
  | Some _, Some _ => true
  | _, _ => false
  end.

End Buf.

(** ** IEEE-754 interchange formats

    A format has [mw] stored mantissa bits and [ew] exponent bits
    (binary32: 23 and 8; binary64: 52 and 11).  [to_bits] is the bit
    pattern a [Float32Array]/[Float64Array] slot holds, [of_bits] the
    value such a slot denotes, [round] the conversion performed when a
    number is stored into the slot (round to nearest, ties to even).  A
    NaN is stored as the quiet NaN with an empty payload. *)
Module IEEE.
Section Format.
Variables mw ew : Z.

Definition prec : Z := mw + 1.
Definition emax : Z := 2 ^ (ew - 1).

Definition join (s : bool) (ex mx : Z) : Z :=
  (if s then 2 ^ (mw + ew) else 0) + ex * 2 ^ mw + mx.

Definition to_bits (x : spec_float) : Z :=
  match x with
  | S754_zero s => join s 0 0
  | S754_infinity s => join s (2 ^ ew - 1) 0
  | S754_nan => join false (2 ^ ew - 1) (2 ^ (mw - 1))
  | S754_finite s m e =>
      if Z.pos m <? 2 ^ mw
      then join s 0 (Z.pos m)
      else join s (e - emin prec emax + 1) (Z.pos m - 2 ^ mw)
  end.

Definition of_bits (n : Z) : spec_float :=
  let s := 2 ^ (mw + ew) <=? n in
  let ex := (n / 2 ^ mw) mod 2 ^ ew in
  let mx := n mod 2 ^ mw in
  if ex =? 0 then
    match mx with
    | Z.pos p => S754_finite s p (emin prec emax)
    | _ => S754_zero s
    end
  else if ex =? 2 ^ ew - 1 then
    if mx =? 0 then S754_infinity s else S754_nan
  else
    match mx + 2 ^ mw with
    | Z.pos p => S754_finite s p (ex + emin prec emax - 1)
    | _ => S754_nan
    end.

Definition round (x : spec_float) : spec_float :=
  match x with
  | S754_finite s m e => binary_round prec emax s m e
  | _ => x
  end.

(** The values of the format, in canonical form. *)
Definition representable (x : spec_float) : bool :=
  valid_binary prec emax x.
End Format.
End IEEE.

(** ** The typed accessors of [Buffer] *)

Module BufAcc.
Import Buf.

(** What an accessor writes or returns: an integer (a number or a
    bigint) or a floating value. *)
Definition arg (f : fn) : Type :=
  match f with
  | Float | Double => spec_float
  | _ => Z
  end.

Definition writeInt (lo hi : Z) (w : nat) (e : option Endian)
    (value offset : Z) (s : Buffer) : outcome Buffer :=
  if (value <? lo) || (hi <? value) then Throw ValueOutOfRange
  else if checkBounds s offset w then Ok (store e w value offset s)
  else Throw OutOfBounds.

Definition writeFloating (mw ew : Z) (w : nat) (e : option Endian)
    (value : spec_float) (offset : Z) (s : Buffer) : outcome Buffer :=
  if checkBounds s offset w
  then Ok (store e w (IEEE.to_bits mw ew (IEEE.round mw ew value)) offset s)
  else Throw OutOfBounds.

Definition readUInt (w : nat) (e : option Endian) (offset : Z)
    (s : Buffer) : outcome Z :=
  if checkBounds s offset w then Ok (load e w offset s)
  else Throw OutOfBounds.

(** Two's complement reading of the unsigned value. *)
Definition asIntN (w : nat) (u : Z) : Z :=
  if u <? 2 ^ (8 * Z.of_nat w - 1) then u else u - 2 ^ (8 * Z.of_nat w).

Definition readInt (w : nat) (e : option Endian) (offset : Z)
    (s : Buffer) : outcome Z :=
  if checkBounds s offset w then Ok (asIntN w (load e w offset s))
  else Throw OutOfBounds.

Definition readFloating (mw ew : Z) (w : nat) (e : option Endian)
    (offset : Z) (s : Buffer) : outcome spec_float :=
  if checkBounds s offset w
  then Ok (IEEE.of_bits mw ew (load e w offset s))
  else Throw OutOfBounds.

(** [buf.write<f><e>(value, offset)] *)
Definition write (f : fn) (e : option Endian)
  : arg f -> Z -> Buffer -> outcome Buffer :=
  match f as f0 return arg f0 -> Z -> Buffer -> outcome Buffer with
  | Int8 => writeInt (- 2 ^ 7) (2 ^ 7 - 1) 1 e
  | UInt8 => writeInt 0 (2 ^ 8 - 1) 1 e
  | Int16 => writeInt (- 2 ^ 15) (2 ^ 15 - 1) 2 e
  | UInt16 => writeInt 0 (2 ^ 16 - 1) 2 e
  | Int32 => writeInt (- 2 ^ 31) (2 ^ 31 - 1) 4 e
  | UInt32 => writeInt 0 (2 ^ 32 - 1) 4 e
  | Float => writeFloating 23 8 4 e
  | Double => writeFloating 52 11 8 e
  | BigInt64 => writeInt (- 2 ^ 63) (2 ^ 63 - 1) 8 e
  | BigUint64 => writeInt 0 (2 ^ 64 - 1) 8 e
  end.

(** [buf.read<f><e>(offset)] *)
Definition read (f : fn) (e : option Endian)
  : Z -> Buffer -> outcome (arg f) :=
  match f as f0 return Z -> Buffer -> outcome (arg f0) with
  | Int8 => readInt 1 e
  | UInt8 => readUInt 1 e
  | Int16 => readInt 2 e
  | UInt16 => readUInt 2 e
  | Int32 => readInt 4 e
  | UInt32 => readUInt 4 e
  | Float => readFloating 23 8 4 e
  | Double => readFloating 52 11 8 e
  | BigInt64 => readInt 8 e
  | BigUint64 => readUInt 8 e
  end.

(** The integer whose octets a write stores. *)
Definition bits (f : fn) : arg f -> Z :=
  match f as f0 return arg f0 -> Z with
  | Float => fun v => IEEE.to_bits 23 8 (IEEE.round 23 8 v)
  | Double => fun v => IEEE.to_bits 52 11 (IEEE.round 52 11 v)
  | _ => fun v => v
  end.

(** The value a read makes of the loaded integer. *)
Definition unbits (f : fn) : Z -> arg f :=
  match f as f0 return Z -> arg f0 with
  | Int8 => asIntN 1
  | Int16 => asIntN 2
  | Int32 => asIntN 4
  | BigInt64 => asIntN 8
  | Float => IEEE.of_bits 23 8
  | Double => IEEE.of_bits 52 11
  | _ => fun u => u
  end.

(** The value check of a write. *)
Definition in_range (f : fn) : arg f -> bool :=
  match f as f0 return arg f0 -> bool with
  | Int8 => fun v => negb ((v <? - 2 ^ 7) || (2 ^ 7 - 1 <? v))
  | UInt8 => fun v => negb ((v <? 0) || (2 ^ 8 - 1 <? v))
  | Int16 => fun v => negb ((v <? - 2 ^ 15) || (2 ^ 15 - 1 <? v))
  | UInt16 => fun v => negb ((v <? 0) || (2 ^ 16 - 1 <? v))
  | Int32 => fun v => negb ((v <? - 2 ^ 31) || (2 ^ 31 - 1 <? v))
  | UInt32 => fun v => negb ((v <? 0) || (2 ^ 32 - 1 <? v))
  | BigInt64 => fun v => negb ((v <? - 2 ^ 63) || (2 ^ 63 - 1 <? v))
  | BigUint64 => fun v => negb ((v <? 0) || (2 ^ 64 - 1 <? v))
  | Float | Double => fun _ => true
  end.

(** The values an accessor can represent. *)
Definition fits (f : fn) : arg f -> Prop :=
  match f as f0 return arg f0 -> Prop with
  | Int8 => fun v => - 2 ^ 7 <= v < 2 ^ 7
  | UInt8 => fun v => 0 <= v < 2 ^ 8
  | Int16 => fun v => - 2 ^ 15 <= v < 2 ^ 15
  | UInt16 => fun v => 0 <= v < 2 ^ 16
  | Int32 => fun v => - 2 ^ 31 <= v < 2 ^ 31
  | UInt32 => fun v => 0 <= v < 2 ^ 32
  | BigInt64 => fun v => - 2 ^ 63 <= v < 2 ^ 63
  | BigUint64 => fun v => 0 <= v < 2 ^ 64
  | Float => fun v => IEEE.representable 23 8 v = true
  | Double => fun v => IEEE.representable 52 11 v = true
  end.

End BufAcc.

(** ** The class *)

Record DynBuffer := mkDynBuffer {
  stream : Buffer;
  position : Z;
  endian : Endian
}.

(** A method: a state transformer that returns or throws. *)
Definition M (A : Type) : Type := DynBuffer -> outcome A * DynBuffer.

Definition ret {A} (a : A) : M A := fun this => (Ok a, this).

Definition throw {A} (e : error) : M A := fun this => (Throw e, this).

Definition bind {A B} (m : M A) (k : A -> M B) : M B :=
  fun this =>
    match m this with
    | (Ok a, this') => k a this'
    | (Throw e, this') => (Throw e, this')
    end.

Notation "x <- m ;; k" := (bind m (fun x => k))
  (at level 100, m at next level, right associativity).
Notation "m ;;; k" := (bind m (fun _ => k))
  (at level 100, right associativity).

(** [constructor()] *)
Definition constructor : DynBuffer :=
  mkDynBuffer (mkBuffer [] Tracking) 0 BE.

(** [get bytesAvailable()] *)
Definition bytesAvailable (this : DynBuffer) : Z :=
  Buf.length (stream this) - position this.

(** [get length()] *)
Definition get_length (this : DynBuffer) : Z := Buf.length (stream this).

(** [set length(value)] *)
Definition set_length (value : Z) : M unit :=
  fun this =>
    if Buf.length (stream this) <? value then
      (Ok tt, this)
    else
      let stream' := Buf.subarray0 (stream this) value in
      (Ok tt, mkDynBuffer stream' (Buf.length stream') (endian this)).

(** [set position(value)] *)
Definition set_position (value : Z) : M unit :=
  fun this => (Ok tt, mkDynBuffer (stream this) value (endian this)).

(** [set endian(value)] *)
Definition set_endian (value : Endian) : M unit :=
  fun this => (Ok tt, mkDynBuffer (stream this) (position this) value).

(** [#ensureCapacity(bytes)] *)
Definition ensureCapacity (bytes : Z) : M unit :=
  fun this =>
    if bytesAvailable this <? bytes then
      let newLength :=
        Buf.length (stream this) + (bytes - bytesAvailable this) in
      match Buf.resize (stream this) newLength with
      | Ok stream' =>
          (Ok tt, mkDynBuffer stream' (position this) (endian this))
      | Throw e => (Throw e, this)
      end
    else (Ok tt, this).

(** The name [func] becomes after the first line of [#executeCall]:
    the stem alone for one byte, the stem and the byte order
    otherwise. *)
Definition suffix (bytes : Z) (this : DynBuffer) : option Endian :=
  if bytes =? 1 then None else Some (endian this).

(** [this.#stream[func](value, this.#position)] *)
Definition streamWrite (func : Buf.fn) (sfx : option Endian)
    (value : BufAcc.arg func) : M unit :=
  fun this =>
    if Buf.has_method func sfx then
      match BufAcc.write func sfx value (position this) (stream this) with
      | Ok stream' =>
          (Ok tt, mkDynBuffer stream' (position this) (endian this))
      | Throw e => (Throw e, this)
      end
    else (Throw NotAFunction, this).

(** [this.#stream[func](this.#position)] *)
Definition streamRead (func : Buf.fn) (sfx : option Endian)
    : M (BufAcc.arg func) :=
  fun this =>
    if Buf.has_method func sfx then
      match BufAcc.read func sfx (position this) (stream this) with
      | Ok v => (Ok v, this)
      | Throw e => (Throw e, this)
      end
    else (Throw NotAFunction, this).

(** [this.#position += bytes] in [#executeCall]: it runs only after the
    [Buffer] accessor has succeeded, hence with
    [0 <= position <= length], where the sum is exact. *)
Definition advance (bytes : Z) : M unit :=
  fun this =>
    (Ok tt, mkDynBuffer (stream this) (position this + bytes) (endian this)).

(** [#executeCall(func, bytes, value)], the branch taken with three
    arguments. *)
Definition executeCall_write (func : Buf.fn) (bytes : Z)
    (value : BufAcc.arg func) : M unit :=
  fun this =>
    let sfx := suffix bytes this in
    (ensureCapacity bytes ;;;
     streamWrite func sfx value ;;;
     advance bytes) this.

(** [#executeCall(func, bytes)], the branch taken with two arguments. *)
Definition executeCall_read (func : Buf.fn) (bytes : Z)
    : M (BufAcc.arg func) :=
  fun this =>
    let sfx := suffix bytes this in
    (value <- streamRead func sfx ;;
     advance bytes ;;;
     ret value) this.

(** [clear()] *)
Definition clear : M unit :=
  set_position 0 ;;; set_length 0.

Definition writeByte (value : Z) : M unit :=
  executeCall_write Buf.Int8 1 value.
Definition readByte : M Z := executeCall_read Buf.Int8 1.

Definition writeUnsignedByte (value : Z) : M unit :=
  executeCall_write Buf.UInt8 1 value.
Definition readUnsignedByte : M Z := executeCall_read Buf.UInt8 1.

(** [writeBytes(bytes, position = 0, length = 0) { }] and
    [readBytes(bytes, position = 0, length = 0) { }]: empty bodies. *)
Definition writeBytes (bytes : list byte) (position length : Z) : M unit :=
  ret tt.
Definition readBytes (bytes : list byte) (position length : Z) : M unit :=
  ret tt.

Definition writeBoolean (value : bool) : M unit :=
  writeByte (if value then 1 else 0).
Definition readBoolean : M bool :=
  b <- readByte ;; ret (negb (b =? 0)).

Definition writeShort (value : Z) : M unit :=
  executeCall_write Buf.Int16 2 value.
Definition readShort : M Z := executeCall_read Buf.Int16 2.

Definition writeUnsignedShort (value : Z) : M unit :=
  executeCall_write Buf.UInt16 2 value.
Definition readUnsignedShort : M Z := executeCall_read Buf.UInt16 2.

Definition writeInt (value : Z) : M unit :=
  executeCall_write Buf.Int32 4 value.
Definition readInt : M Z := executeCall_read Buf.Int32 4.

Definition writeUnsignedInt (value : Z) : M unit :=
  executeCall_write Buf.UInt32 4 value.
Definition readUnsignedInt : M Z := executeCall_read Buf.UInt32 4.

Definition writeFloat (value : spec_float) : M unit :=
  executeCall_write Buf.Float 4 value.
Definition readFloat : M spec_float := executeCall_read Buf.Float 4.

Definition writeDouble (value : spec_float) : M unit :=
  executeCall_write Buf.Double 8 value.
Definition readDouble : M spec_float := executeCall_read Buf.Double 8.

Definition writeLong (value : Z) : M unit :=
  executeCall_write Buf.BigInt64 8 value.
Definition readLong : M Z := executeCall_read Buf.BigInt64 8.

Definition writeUnsignedLong (value : Z) : M unit :=
  executeCall_write Buf.BigUint64 8 value.
Definition readUnsignedLong : M Z := executeCall_read Buf.BigUint64 8.

(** ** The text codec bridge

    [iconv-lite] is an external service; the class uses three of its
    functions.  Text and character-set names are strings. *)
Record Iconv := mkIconv {
  encodingExists : string -> bool;
  encode : string -> string -> list byte;   (* [{ addBOM: false }] *)
  decode : list byte -> string -> string
}.

Section TextCodecBridge.
Variable iconv : Iconv.

(** [writeMultiByte(value, charSet = 'utf8', source = false)] *)
Definition writeMultiByte (value charSet : string) (source : bool)
    : M unit :=
  if negb (encodingExists iconv charSet) then throw UnsupportedEncoding
  else
    let encoded := encode iconv value charSet in
    (if source
     then writeUnsignedShort (Z.of_nat (List.length encoded))
     else ret tt) ;;;
    writeBytes encoded 0 (Z.of_nat (List.length encoded)).

(** [readMultiByte(length, charSet = 'utf8')]; both
    [this.#position + length] and [this.#position += length] are sums
    of numbers of any size. *)
Definition readMultiByte (length : Z) (charSet : string) : M string :=
  if negb (encodingExists iconv charSet) then throw UnsupportedEncoding
  else
    fun this =>
      let buffer :=
        Buf.subarray_bytes (stream this) (position this)
                           (JSNumber.add (position this) length) in
      let value := decode iconv buffer charSet in
      (set_position (JSNumber.add (position this) length) ;;;
       ret value) this.

Definition writeUTF (value : string) : M unit :=
  writeMultiByte value "utf8" true.

Definition readUTF : M string :=
  length <- readUnsignedShort ;; readMultiByte length "utf8".

Definition writeUTFBytes (value : string) : M unit :=
  writeMultiByte value "utf8" false.

Definition readUTFBytes (length : Z) : M string :=
  readMultiByte length "utf8".

End TextCodecBridge.

(** ** The typed accessor pairs, by primitive type *)

Inductive prim :=
  | TByte | TUnsignedByte | TBoolean
  | TShort | TUnsignedShort
  | TInt | TUnsignedInt
  | TFloat | TDouble
  | TLong | TUnsignedLong.

Definition val (T : prim) : Type :=
  match T with
  | TBoolean => bool
  | TFloat | TDouble => spec_float
  | _ => Z
  end.

(** The write accessor of a type. *)
Definition write (T : prim) : val T -> M unit :=
  match T as T0 return val T0 -> M unit with
  | TByte => writeByte
  | TUnsignedByte => writeUnsignedByte
  | TBoolean => writeBoolean
  | TShort => writeShort
  | TUnsignedShort => writeUnsignedShort
  | TInt => writeInt
  | TUnsignedInt => writeUnsignedInt
  | TFloat => writeFloat
  | TDouble => writeDouble
  | TLong => writeLong
  | TUnsignedLong => writeUnsignedLong
  end.

(** The read accessor of a type. *)
Definition read (T : prim) : M (val T) :=
  match T as T0 return M (val T0) with
  | TByte => readByte
  | TUnsignedByte => readUnsignedByte
  | TBoolean => readBoolean
  | TShort => readShort
  | TUnsignedShort => readUnsignedShort
  | TInt => readInt
  | TUnsignedInt => readUnsignedInt
  | TFloat => readFloat
  | TDouble => readDouble
  | TLong => readLong
  | TUnsignedLong => readUnsignedLong
  end.

(** Byte width of a type (the second argument its accessors pass to
    [#executeCall]). *)
Definition byteWidth (T : prim) : Z :=
  match T with
  | TByte | TUnsignedByte | TBoolean => 1
  | TShort | TUnsignedShort => 2
  | TInt | TUnsignedInt | TFloat => 4
  | TDouble | TLong | TUnsignedLong => 8
  end.

(** The values a type can represent. *)
Definition representable (T : prim) : val T -> Prop :=
  match T as T0 return val T0 -> Prop with
  | TByte => fun v => - 2 ^ 7 <= v < 2 ^ 7
  | TUnsignedByte => fun v => 0 <= v < 2 ^ 8
  | TBoolean => fun _ => True
  | TShort => fun v => - 2 ^ 15 <= v < 2 ^ 15
  | TUnsignedShort => fun v => 0 <= v < 2 ^ 16
  | TInt => fun v => - 2 ^ 31 <= v < 2 ^ 31
  | TUnsignedInt => fun v => 0 <= v < 2 ^ 32
  | TFloat => fun v => IEEE.representable 23 8 v = true
  | TDouble => fun v => IEEE.representable 52 11 v = true
  | TLong => fun v => - 2 ^ 63 <= v < 2 ^ 63
  | TUnsignedLong => fun v => 0 <= v < 2 ^ 64
  end.

(** The bytes between [position] and [position + n] of the stream. *)
Definition bytesAt (this : DynBuffer) (p n : Z) : list byte :=
  Buf.subarray_bytes (stream this) p (p + n).

(** [with_position p this] is [this] after [this.position = p]. *)
Definition with_position (p : Z) (this : DynBuffer) : DynBuffer :=
  snd (set_position p this).

(** [with_endian e this] is [this] after [this.endian = e]. *)
Definition with_endian (e : Endian) (this : DynBuffer) : DynBuffer :=
  snd (set_endian e this).

(** A sample codec service: the [utf8] codec on text whose characters
    are below 128, one byte per character. *)
Definition ascii_encode (value : string) : list byte :=
  list_byte_of_string value.

Definition ascii_decode (bytes : list byte) : string :=
  string_of_list_byte bytes.

Definition sampleIconv : Iconv :=
  mkIconv (fun name => String.eqb name "utf8")
          (fun value _ => ascii_encode value)
          (fun bytes _ => ascii_decode bytes).

(** The [Buffer] accessor behind the pair of a type, the value handed
    to it by the write method and the value the read method makes of
    its result. *)
Definition fn_of (T : prim) : Buf.fn :=
  match T with
  | TByte | TBoolean => Buf.Int8
  | TUnsignedByte => Buf.UInt8
  | TShort => Buf.Int16
  | TUnsignedShort => Buf.UInt16
  | TInt => Buf.Int32
  | TUnsignedInt => Buf.UInt32
  | TFloat => Buf.Float
  | TDouble => Buf.Double
  | TLong => Buf.BigInt64
  | TUnsignedLong => Buf.BigUint64
  end.

Definition toArg (T : prim) : val T -> BufAcc.arg (fn_of T) :=
  match T as T0 return val T0 -> BufAcc.arg (fn_of T0) with
  | TBoolean => fun value : bool => if value then 1 else 0
  | _ => fun value => value
  end.

Definition ofArg (T : prim) : BufAcc.arg (fn_of T) -> val T :=
  match T as T0 return BufAcc.arg (fn_of T0) -> val T0 with
  | TBoolean => fun b : Z => negb (b =? 0)
  | _ => fun value => value
  end.

(** ** The public operations as transitions *)

Inductive result :=
  | RUndefined
  | RNumber (n : Z)
  | RBoolean (b : bool)
  | RFloating (x : spec_float)
  | RString (s : string).

Definition toResult (T : prim) : val T -> result :=
  match T as T0 return val T0 -> result with
  | TBoolean => RBoolean
  | TFloat | TDouble => RFloating
  | _ => RNumber
  end.

Inductive op :=
  | SetLength (value : Z)
  | SetPosition (value : Z)
  | SetEndian (value : Endian)
  | Clear
  | TypedWrite (T : prim) (value : val T)
  | TypedRead (T : prim)
  | WriteBytes (bytes : list byte) (position length : Z)
  | ReadBytes (bytes : list byte) (position length : Z)
  | WriteMultiByte (value charSet : string) (source : bool)
  | ReadMultiByte (length : Z) (charSet : string)
  | WriteUTF (value : string)
  | ReadUTF
  | WriteUTFBytes (value : string)
  | ReadUTFBytes (length : Z).

Definition returning {A} (f : A -> result) (m : M A) : M result :=
  a <- m ;; ret (f a).

Definition exec (iconv : Iconv) (o : op) : M result :=
  match o with
  | SetLength value => returning (fun _ => RUndefined) (set_length value)
  | SetPosition value => returning (fun _ => RUndefined) (set_position value)
  | SetEndian value => returning (fun _ => RUndefined) (set_endian value)
  | Clear => returning (fun _ => RUndefined) clear
  | TypedWrite T value => returning (fun _ => RUndefined) (write T value)
  | TypedRead T => returning (toResult T) (read T)
  | WriteBytes bytes position length =>
      returning (fun _ => RUndefined) (writeBytes bytes position length)
  | ReadBytes bytes position length =>
      returning (fun _ => RUndefined) (readBytes bytes position length)
  | WriteMultiByte value charSet source =>
      returning (fun _ => RUndefined)
                (writeMultiByte iconv value charSet source)
  | ReadMultiByte length charSet =>
      returning RString (readMultiByte iconv length charSet)
  | WriteUTF value => returning (fun _ => RUndefined) (writeUTF iconv value)
  | ReadUTF => returning RString (readUTF iconv)
  | WriteUTFBytes value =>
      returning (fun _ => RUndefined) (writeUTFBytes iconv value)
  | ReadUTFBytes length => returning RString (readUTFBytes iconv length)
  end.

(** The buffer after [writeUnsignedInt(0x12345678)] and [position = 1]. *)
Definition fourBytesAtOne : DynBuffer :=
  mkDynBuffer (mkBuffer [x12; x34; x56; x78] Tracking) 1 BE.

(** A fresh buffer after [position = 2 ** 30]. *)
Definition atCeiling : DynBuffer :=
  mkDynBuffer (mkBuffer [] Tracking) (2 ^ 30) BE.
(** ** Serialised form of a typed value *)

(** The bytes a typed write of [v] puts at the cursor under byte order
    [e]: the octets of the stored integer (the value itself, or the
    IEEE-754 bit pattern of a floating value, a NaN being the quiet
    NaN with an empty payload), lowest first under [LE] and highest
    first under [BE]. *)
Definition wire (T : prim) (e : Endian) (v : val T) : list byte :=
  let o :=
    Buf.octets (Buf.width (fn_of T)) (BufAcc.bits (fn_of T) (toArg T v)) in
  match e with
  | BE => rev o
  | LE => o
  end.

(** A typed value: one field of a record written field by field. *)
Definition field : Type := { T : prim & val T }.

(** The fields written one after the other:
    [write(T1, v1); write(T2, v2); ...]. *)
Fixpoint writeAll (fields : list field) : M unit :=
  match fields with
  | [] => ret tt
  | existT T v :: rest => write T v ;;; writeAll rest
  end.

(** The fields read one after the other: [read(T1); read(T2); ...]. *)
Fixpoint readAll (Ts : list prim) : M (list field) :=
  match Ts with
  | [] => ret []
  | T :: rest =>
      v <- read T ;; vs <- readAll rest ;; ret (existT T v :: vs)
  end.

Definition wireAll (e : Endian) (fields : list field) : list byte :=
  concat (map (fun f : field => wire (projT1 f) e (projT2 f)) fields).

(** A field whose value its type can represent. *)
Definition fieldOk (f : field) : Prop := representable (projT1 f) (projT2 f).

(** A record of three fields: a signed int, a boolean and a double. *)
Definition sampleRecord : list field :=
  [existT TInt (-2); existT TBoolean true;
   existT TDouble (S754_finite true 6755399441055744 (-51))].

(** A text of 65536 characters ["a"]. *)
Definition longText : string :=
  string_of_list_byte (replicate (Z.to_nat 65536) x61).


(** The buffer after [writeUnsignedInt(0x12345678)] and [length = 2]. *)
Definition fourBytesCutToTwo : DynBuffer :=
  mkDynBuffer (mkBuffer [x12; x34; x56; x78] (Fixed 2)) 2 BE.

(** The operations that read. *)
Definition isRead (o : op) : bool :=
  match o with
  | TypedRead _ | ReadBytes _ _ _ | ReadMultiByte _ _ | ReadUTF
  | ReadUTFBytes _ => true
  | _ => false
  end.

(** The operations that assign [endian]. *)
Definition isSetEndian (o : op) : bool :=
  match o with
  | SetEndian _ => true
  | _ => false
  end.

(** The buffer after [writeUnsignedShort(2)], [writeUnsignedByte(0x68)],
    [writeUnsignedByte(0x69)] and [position = 0]. *)
Definition prefixedHi : DynBuffer :=
  mkDynBuffer (mkBuffer [x00; x02; x68; x69] Tracking) 0 BE.

(** * Properties of the host model *)

Lemma Z_of_byte_of_Z z : Z_of_byte (byte_of_Z z) = z mod 256.
Proof.
  unfold Z_of_byte, byte_of_Z.
  assert (0 <= z mod 256 < 256) by (apply Z.mod_pos_bound; lia).
  destruct (Byte.of_N (Z.to_N (z mod 256))) eqn:E.
  - apply Byte.to_of_N in E. rewrite E. lia.
  - apply Byte.of_N_None_iff in E. lia.
Qed.

Module BufFacts.
Import Buf.

Lemma length_bounds s : 0 <= length s <= Z.of_nat (List.length (buffer s)).
Proof.
  unfold length. destruct (window s) as [|n]; [lia|].
  destruct (Nat.leb_spec n (List.length (buffer s))); lia.
Qed.

Lemma length_set s i b : length (set s i b) = length s.
Proof.
  unfold set. destruct (_ && _); [|done].
  unfold length; simpl. by rewrite length_insert.
Qed.

Lemma get_in s i : 0 <= i < length s -> is_Some (get s i).
Proof.
  intros Hi. unfold get.
  destruct (Z.leb_spec 0 i), (Z.ltb_spec i (length s)); try lia. simpl.
  apply lookup_lt_is_Some. pose proof (length_bounds s). lia.
Qed.

Lemma get_out s i : ~ (0 <= i < length s) -> get s i = None.
Proof.
  intros Hi. unfold get.
  destruct (Z.leb_spec 0 i), (Z.ltb_spec i (length s)); try lia; done.
Qed.

Lemma get_set_eq s i b : 0 <= i < length s -> get (set s i b) i = Some b.
Proof.
  intros Hi. unfold get. rewrite length_set. unfold set.
  destruct (Z.leb_spec 0 i), (Z.ltb_spec i (length s)); try lia. simpl.
  apply list_lookup_insert_eq. pose proof (length_bounds s). lia.
Qed.

Lemma get_set_ne s i j b : i <> j -> get (set s i b) j = get s j.
Proof.
  intros Hij. unfold get. rewrite length_set. unfold set.
  destruct ((0 <=? j) && (j <? length s)) eqn:Hj; [|done].
  destruct ((0 <=? i) && (i <? length s)) eqn:Hi; [|done]. simpl.
  apply list_lookup_insert_ne. lia.
Qed.

Lemma checkBounds_spec s offset w :
  (0 < w)%nat ->
  checkBounds s offset w = true <->
  0 <= offset /\ offset + Z.of_nat w <= length s.
Proof.
  intros Hw. unfold checkBounds. split.
  - destruct (get s offset) eqn:E1; [|done].
    destruct (get s (offset + Z.of_nat w - 1)) eqn:E2; [|done].
    intros _.
    destruct (decide (0 <= offset < length s)) as [?|N];
      [|by rewrite (get_out _ _ N) in E1].
    destruct (decide (0 <= offset + Z.of_nat w - 1 < length s)) as [?|N];
      [lia|by rewrite (get_out _ _ N) in E2].
  - intros [H0 H1].
    destruct (get_in s offset) as [? ->]; [lia|].
    destruct (get_in s (offset + Z.of_nat w - 1)) as [? ->]; [lia|done].
Qed.

Lemma length_storeLE w : forall v offset s,
  length (storeLE w v offset s) = length s.
Proof.
  induction w as [|w IH]; intros; simpl; [done|].
  by rewrite IH, length_set.
Qed.

Lemma length_storeBE w : forall v offset s,
  length (storeBE w v offset s) = length s.
Proof.
  induction w as [|w IH]; intros; simpl; [done|].
  by rewrite IH, length_set.
Qed.

Lemma length_store e w v offset s :
  length (store e w v offset s) = length s.
Proof.
  destruct e as [[]|]; simpl; auto using length_storeLE, length_storeBE.
Qed.

Lemma get_storeLE_out w : forall v offset s i,
  i < offset \/ offset + Z.of_nat w <= i ->
  get (storeLE w v offset s) i = get s i.
Proof.
  induction w as [|w IH]; intros v offset s i Hi; simpl; [done|].
  rewrite IH by lia. apply get_set_ne. lia.
Qed.

Lemma get_storeBE_out w : forall v offset s i,
  i < offset \/ offset + Z.of_nat w <= i ->
  get (storeBE w v offset s) i = get s i.
Proof.
  induction w as [|w IH]; intros v offset s i Hi; simpl; [done|].
  rewrite IH by lia. apply get_set_ne. lia.
Qed.

Lemma octet_0 v : octet v 0 = byte_of_Z v.
Proof. unfold octet. by rewrite Z.shiftr_0_r. Qed.

Lemma octet_shiftr v i : 0 <= i -> octet (Z.shiftr v 8) i = octet v (i + 1).
Proof.
  intros Hi. unfold octet. rewrite Z.shiftr_shiftr by lia.
  f_equal. f_equal. lia.
Qed.

Lemma get_storeLE_in w : forall v offset s (i : nat),
  0 <= offset -> offset + Z.of_nat w <= length s -> (i < w)%nat ->
  get (storeLE w v offset s) (offset + Z.of_nat i)
  = Some (octet v (Z.of_nat i)).
Proof.
  induction w as [|w IH]; intros v offset s i H0 H1 Hi; simpl; [lia|].
  destruct i as [|i].
  - rewrite get_storeLE_out by lia.
    replace (offset + Z.of_nat 0) with offset by lia.
    rewrite get_set_eq by lia. by rewrite octet_0.
  - replace (offset + Z.of_nat (S i)) with (offset + 1 + Z.of_nat i) by lia.
    rewrite IH by (rewrite ?length_set; lia).
    rewrite octet_shiftr by lia. do 2 f_equal. lia.
Qed.

Lemma get_storeBE_in w : forall v offset s (i : nat),
  0 <= offset -> offset + Z.of_nat w <= length s -> (i < w)%nat ->
  get (storeBE w v offset s) (offset + Z.of_nat i)
  = Some (octet v (Z.of_nat w - 1 - Z.of_nat i)).
Proof.
  induction w as [|w IH]; intros v offset s i H0 H1 Hi; simpl; [lia|].
  destruct (decide (i = w)) as [->|Hne].
  - rewrite get_storeBE_out by lia.
    rewrite get_set_eq by lia.
    replace (Z.of_nat (S w) - 1 - Z.of_nat w) with 0 by lia.
    by rewrite octet_0.
  - rewrite IH by (rewrite ?length_set; lia).
    rewrite octet_shiftr by lia. do 2 f_equal. lia.
Qed.

Lemma byteAt_octet s i v k :
  get s i = Some (octet v k) -> 0 <= k ->
  byteAt s i = (v / 2 ^ (8 * k)) mod 2 ^ 8.
Proof.
  intros E Hk. unfold byteAt. rewrite E. unfold octet.
  rewrite Z_of_byte_of_Z, Z.shiftr_div_pow2 by lia. done.
Qed.

Lemma mod_pow_step v (w : nat) :
  v mod 2 ^ 8 + 2 ^ 8 * ((v / 2 ^ 8) mod 2 ^ (8 * Z.of_nat w))
  = v mod 2 ^ (8 * Z.of_nat (S w)).
Proof.
  replace (8 * Z.of_nat (S w)) with (8 + 8 * Z.of_nat w) by lia.
  rewrite Z.pow_add_r by lia.
  rewrite Z.rem_mul_r; [done|lia|]. apply Z.pow_pos_nonneg; lia.
Qed.

Lemma loadLE_spec w : forall v offset s,
  (forall i : nat, (i < w)%nat ->
     get s (offset + Z.of_nat i) = Some (octet v (Z.of_nat i))) ->
  loadLE w offset s = v mod 2 ^ (8 * Z.of_nat w).
Proof.
  induction w as [|w IH]; intros v offset s H; simpl loadLE.
  - by rewrite Z.mod_1_r.
  - assert (E0 : get s offset = Some (octet v 0)).
    { pose proof (H 0%nat ltac:(lia)) as H0.
      change (Z.of_nat 0) with 0 in H0. by rewrite Z.add_0_r in H0. }
    rewrite (byteAt_octet _ _ _ _ E0) by lia.
    rewrite (IH (Z.shiftr v 8)).
    + rewrite Z.shiftr_div_pow2 by lia.
      replace (8 * 0) with 0 by lia. rewrite Z.pow_0_r, Z.div_1_r.
      apply mod_pow_step.
    + intros i Hi. rewrite octet_shiftr by lia.
      replace (Z.of_nat i + 1) with (Z.of_nat (S i)) by lia.
      rewrite <- (H (S i)) by lia. f_equal. lia.
Qed.

Lemma loadBE_spec w : forall v offset s,
  (forall i : nat, (i < w)%nat ->
     get s (offset + Z.of_nat i)
     = Some (octet v (Z.of_nat w - 1 - Z.of_nat i))) ->
  loadBE w offset s = v mod 2 ^ (8 * Z.of_nat w).
Proof.
  induction w as [|w IH]; intros v offset s H; simpl loadBE.
  - by rewrite Z.mod_1_r.
  - assert (E0 : get s (offset + Z.of_nat w) = Some (octet v 0)).
    { rewrite (H w) by lia. do 2 f_equal. lia. }
    rewrite (byteAt_octet _ _ _ _ E0) by lia.
    rewrite (IH (Z.shiftr v 8)).
    + rewrite Z.shiftr_div_pow2 by lia.
      replace (8 * 0) with 0 by lia. rewrite Z.pow_0_r, Z.div_1_r.
      apply mod_pow_step.
    + intros i Hi. rewrite octet_shiftr by lia.
      rewrite (H i) by lia. do 2 f_equal. lia.
Qed.

(** Reading back what was just stored, under either byte order. *)
Lemma load_store e w v offset s :
  0 <= offset -> offset + Z.of_nat w <= length s ->
  load e w offset (store e w v offset s) = v mod 2 ^ (8 * Z.of_nat w).
Proof.
  intros H0 H1. destruct e as [[]|]; simpl.
  - apply loadBE_spec. intros. by apply get_storeBE_in.
  - apply loadLE_spec. intros. by apply get_storeLE_in.
  - apply loadLE_spec. intros. by apply get_storeLE_in.
Qed.

Lemma length_octets w v : List.length (octets w v) = w.
Proof. unfold octets. by rewrite length_fmap, length_seq. Qed.

Lemma lookup_octets w v (i : nat) :
  (i < w)%nat -> octets w v !! i = Some (octet v (Z.of_nat i)).
Proof.
  intros Hi. unfold octets.
  by rewrite list_lookup_fmap, lookup_seq_lt.
Qed.

Lemma clamp_in len k : 0 <= k <= len -> clamp len k = k.
Proof. intros H. unfold clamp. destruct (Z.ltb_spec k 0); lia. Qed.

Lemma subarray_bytes_ext s offset (l : list byte) :
  0 <= offset -> offset + Z.of_nat (List.length l) <= length s ->
  (forall i : nat, (i < List.length l)%nat ->
     get s (offset + Z.of_nat i) = l !! i) ->
  subarray_bytes s offset (offset + Z.of_nat (List.length l)) = l.
Proof.
  intros H0 H1 H. unfold subarray_bytes.
  rewrite !clamp_in by lia.
  replace (Z.max (offset + Z.of_nat (List.length l) - offset) 0)
    with (Z.of_nat (List.length l)) by lia.
  rewrite Nat2Z.id. apply list_eq. intros i.
  destruct (decide (i < List.length l)%nat) as [Hi|Hi].
  - rewrite lookup_take_lt, lookup_drop by lia.
    rewrite <- (H i Hi). unfold get.
    destruct (Z.leb_spec 0 (offset + Z.of_nat i)),
      (Z.ltb_spec (offset + Z.of_nat i) (length s)); try lia.
    simpl. f_equal. lia.
  - rewrite lookup_take_ge by lia. symmetry. apply lookup_ge_None. lia.
Qed.

Lemma bytes_storeLE w v offset s :
  0 <= offset -> offset + Z.of_nat w <= length s ->
  subarray_bytes (storeLE w v offset s) offset (offset + Z.of_nat w)
  = octets w v.
Proof.
  intros H0 H1.
  rewrite <- (length_octets w v) at 2.
  apply subarray_bytes_ext; rewrite ?length_octets, ?length_storeLE; try lia.
  intros i Hi. rewrite lookup_octets by lia. by apply get_storeLE_in.
Qed.

Lemma bytes_storeBE w v offset s :
  0 <= offset -> offset + Z.of_nat w <= length s ->
  subarray_bytes (storeBE w v offset s) offset (offset + Z.of_nat w)
  = rev (octets w v).
Proof.
  intros H0 H1.
  rewrite <- (length_octets w v) at 2. rewrite <- length_rev.
  apply subarray_bytes_ext;
    rewrite ?length_rev, ?length_octets, ?length_storeBE; try lia.
  intros i Hi. rewrite rev_alt. fold (reverse (octets w v)).
  rewrite reverse_lookup by (rewrite length_octets; lia).
  rewrite length_octets, lookup_octets by lia.
  rewrite get_storeBE_in by lia. do 2 f_equal. lia.
Qed.

(** [resize] on the view created by the constructor. *)
Lemma resize_tracking s n :
  window s = Tracking -> 0 <= n <= MAX_CAPACITY ->
  exists s', resize s n = Ok s' /\ window s' = Tracking /\ length s' = n
             /\ buffer s' = list.resize (Z.to_nat n) x00 (buffer s).
Proof.
  intros Hw Hn. unfold resize.
  destruct (Z.ltb_spec n 0), (Z.ltb_spec MAX_CAPACITY n); try lia. simpl.
  eexists; split; [done|]. split; [done|]. split; [|done].
  unfold length; simpl. rewrite Hw, length_resize. lia.
Qed.

Lemma resize_throw s n :
  MAX_CAPACITY < n -> resize s n = Throw CapacityExceeded.
Proof.
  intros Hn. unfold resize.
  destruct (Z.ltb_spec MAX_CAPACITY n); [|lia]. by rewrite orb_true_r.
Qed.

(** A successful [resize] keeps the window and sets the byte length. *)
Lemma resize_Ok s n s' :
  resize s n = Ok s' ->
  0 <= n <= MAX_CAPACITY /\ window s' = window s
  /\ List.length (buffer s') = Z.to_nat n.
Proof.
  unfold resize.
  destruct (Z.ltb_spec n 0), (Z.ltb_spec MAX_CAPACITY n); simpl; try done.
  intros [= <-]. simpl. rewrite length_resize. repeat split; lia.
Qed.

Lemma resize_length s n s' :
  resize s n = Ok s' -> length s < n ->
  length s <= length s' <= n.
Proof.
  unfold resize. destruct (_ || _) eqn:C; [done|].
  apply orb_false_iff in C as [C1 C2].
  apply Z.ltb_ge in C1. apply Z.ltb_ge in C2.
  intros [= <-]. unfold length; simpl. rewrite length_resize.
  destruct (window s) as [|k]; [lia|].
  destruct (Nat.leb_spec k (List.length (buffer s))),
    (Nat.leb_spec k (Z.to_nat n)); lia.
Qed.

End BufFacts.

(** * Properties of the IEEE-754 encoding *)

Module IEEEFacts.
Import IEEE.

Lemma digits2_pos_bounds m :
  2 ^ (Z.pos (digits2_pos m) - 1) <= Z.pos m < 2 ^ Z.pos (digits2_pos m).
Proof.
  induction m as [m IH|m IH|]; simpl digits2_pos.
  - rewrite Pos2Z.inj_succ.
    replace (Z.succ (Z.pos (digits2_pos m)) - 1)
      with (Z.succ (Z.pos (digits2_pos m) - 1)) by lia.
    rewrite !Z.pow_succ_r by lia. lia.
  - rewrite Pos2Z.inj_succ.
    replace (Z.succ (Z.pos (digits2_pos m)) - 1)
      with (Z.succ (Z.pos (digits2_pos m) - 1)) by lia.
    rewrite !Z.pow_succ_r by lia. lia.
  - simpl. lia.
Qed.

Section FormatFacts.
Variables mw ew : Z.
Hypothesis Hmw : 0 < mw.
Hypothesis Hew : 1 < ew.

Lemma emax_eq : 2 ^ ew = 2 * emax ew.
Proof.
  unfold emax. replace ew with (Z.succ (ew - 1)) at 1 by lia.
  rewrite Z.pow_succ_r by lia. done.
Qed.

Lemma emax_ge : 2 <= emax ew.
Proof.
  unfold emax. replace (ew - 1) with (Z.succ (ew - 2)) by lia.
  rewrite Z.pow_succ_r by lia.
  assert (0 < 2 ^ (ew - 2)) by (apply Z.pow_pos_nonneg; lia). lia.
Qed.

Lemma join_fields s ex mx :
  0 <= mx < 2 ^ mw -> 0 <= ex < 2 ^ ew ->
  (2 ^ (mw + ew) <=? join mw ew s ex mx) = s
  /\ (join mw ew s ex mx / 2 ^ mw) mod 2 ^ ew = ex
  /\ join mw ew s ex mx mod 2 ^ mw = mx.
Proof.
  intros Hmx Hex. unfold join.
  assert (Hp : 0 < 2 ^ mw) by (apply Z.pow_pos_nonneg; lia).
  assert (Hq : 0 < 2 ^ ew) by (apply Z.pow_pos_nonneg; lia).
  rewrite Z.pow_add_r by lia.
  set (S := if s then 2 ^ mw * 2 ^ ew else 0).
  assert (HS : S = (if s then 1 else 0) * 2 ^ ew * 2 ^ mw)
    by (subst S; destruct s; lia).
  assert (Hlow : 0 <= ex * 2 ^ mw + mx < 2 ^ mw * 2 ^ ew) by nia.
  repeat split.
  - destruct s; subst S.
    + apply Z.leb_le. lia.
    + apply Z.leb_gt. lia.
  - replace (S + ex * 2 ^ mw + mx)
      with (mx + ((if s then 1 else 0) * 2 ^ ew + ex) * 2 ^ mw) by lia.
    rewrite Z.div_add by lia. rewrite Z.div_small by lia.
    rewrite Z.add_0_l, Z.add_comm, Z.mod_add by lia.
    apply Z.mod_small. lia.
  - replace (S + ex * 2 ^ mw + mx)
      with (mx + ((if s then 1 else 0) * 2 ^ ew + ex) * 2 ^ mw) by lia.
    rewrite Z.mod_add by lia. apply Z.mod_small. lia.
Qed.

Lemma join_range s ex mx :
  0 <= mx < 2 ^ mw -> 0 <= ex < 2 ^ ew ->
  0 <= join mw ew s ex mx < 2 ^ (mw + ew + 1).
Proof.
  intros Hmx Hex. unfold join.
  assert (Hp : 0 < 2 ^ mw) by (apply Z.pow_pos_nonneg; lia).
  assert (Hq : 0 < 2 ^ ew) by (apply Z.pow_pos_nonneg; lia).
  rewrite !Z.pow_add_r by lia. rewrite Z.pow_1_r.
  destruct s; nia.
Qed.

(** Shape of a canonical finite value: normal or subnormal. *)
Lemma bounded_cases m e :
  bounded (prec mw) (emax ew) m e = true ->
  (2 ^ mw <= Z.pos m < 2 ^ (mw + 1)
   /\ emin (prec mw) (emax ew) <= e <= emax ew - prec mw)
  \/ (Z.pos m < 2 ^ mw /\ e = emin (prec mw) (emax ew)).
Proof.
  unfold bounded, canonical_mantissa, fexp.
  intros H. apply andb_prop in H as [H1 H2].
  apply Z.eqb_eq in H1. apply Z.leb_le in H2.
  pose proof (digits2_pos_bounds m) as [Hlo Hhi].
  set (d := Z.pos (digits2_pos m)) in *.
  assert (Hd : 0 < d) by (subst d; lia).
  unfold prec in *.
  destruct (Z.max_spec (d + e - (mw + 1)) (emin (mw + 1) (emax ew)))
    as [[Hlt Hmax]|[Hge Hmax]]; rewrite Hmax in H1.
  - (* e = emin *)
    destruct (Z_lt_le_dec (Z.pos m) (2 ^ mw)) as [Hs|Hn]; [right; done|].
    left. split; [|lia]. split; [done|].
    assert (d <= mw + 1) by lia.
    eapply Z.lt_le_trans; [exact Hhi|].
    apply Z.pow_le_mono_r; lia.
  - left. assert (d = mw + 1) as Hd1 by lia.
    rewrite Hd1 in Hlo, Hhi.
    replace (mw + 1 - 1) with mw in Hlo by lia. lia.
Qed.

Theorem of_to_bits x :
  representable mw ew x = true ->
  of_bits mw ew (to_bits mw ew x) = x.
Proof.
  assert (Hp : 0 < 2 ^ mw) by (apply Z.pow_pos_nonneg; lia).
  assert (Hq : 0 < 2 ^ ew) by (apply Z.pow_pos_nonneg; lia).
  pose proof emax_eq as He2. pose proof emax_ge as Heg.
  unfold representable. destruct x as [s|s| |s m e]; simpl; intros Hv.
  - destruct (join_fields s 0 0) as (Hs & Hex & Hmx); [lia|lia|].
    unfold of_bits. rewrite Hs, Hex, Hmx. done.
  - destruct (join_fields s (2 ^ ew - 1) 0) as (Hs & Hex & Hmx);
      [lia|lia|].
    unfold of_bits. rewrite Hs, Hex, Hmx.
    destruct (Z.eqb_spec (2 ^ ew - 1) 0); [lia|].
    by rewrite Z.eqb_refl.
  - assert (H1 : 0 <= 2 ^ (mw - 1) < 2 ^ mw).
    { split; [apply Z.pow_nonneg; lia|].
      apply Z.pow_lt_mono_r; lia. }
    assert (H2 : 0 < 2 ^ (mw - 1)) by (apply Z.pow_pos_nonneg; lia).
    destruct (join_fields false (2 ^ ew - 1) (2 ^ (mw - 1)))
      as (Hs & Hex & Hmx); [lia|lia|].
    unfold of_bits. rewrite Hex, Hmx.
    destruct (Z.eqb_spec (2 ^ ew - 1) 0); [lia|].
    rewrite Z.eqb_refl.
    destruct (Z.eqb_spec (2 ^ (mw - 1)) 0); [lia|done].
  - destruct (bounded_cases m e Hv) as [[Hm He]|[Hm He]].
    + destruct (Z.ltb_spec (Z.pos m) (2 ^ mw)); [lia|].
      rewrite Z.pow_add_r, Z.pow_1_r in Hm by lia.
      set (em := emin (prec mw) (emax ew)) in *.
      assert (Hem : em = 3 - emax ew - prec mw) by done.
      destruct (join_fields s (e - em + 1) (Z.pos m - 2 ^ mw))
        as (Hs & Hex & Hmx); [lia|lia|].
      unfold of_bits. fold em. rewrite Hs, Hex, Hmx.
      destruct (Z.eqb_spec (e - em + 1) 0); [lia|].
      destruct (Z.eqb_spec (e - em + 1) (2 ^ ew - 1)); [lia|].
      replace (Z.pos m - 2 ^ mw + 2 ^ mw) with (Z.pos m) by lia.
      f_equal. lia.
    + destruct (Z.ltb_spec (Z.pos m) (2 ^ mw)); [|lia].
      destruct (join_fields s 0 (Z.pos m)) as (Hs & Hex & Hmx);
        [lia|lia|].
      unfold of_bits. rewrite Hs, Hex, Hmx. simpl. by rewrite He.
Qed.

Theorem to_bits_range x :
  representable mw ew x = true ->
  0 <= to_bits mw ew x < 2 ^ (mw + ew + 1).
Proof.
  assert (Hp : 0 < 2 ^ mw) by (apply Z.pow_pos_nonneg; lia).
  assert (Hq : 0 < 2 ^ ew) by (apply Z.pow_pos_nonneg; lia).
  pose proof emax_eq as He2. pose proof emax_ge as Heg.
  unfold representable. destruct x as [s|s| |s m e]; simpl; intros Hv.
  - apply join_range; lia.
  - apply join_range; lia.
  - apply join_range; [|lia].
    split; [apply Z.pow_nonneg; lia|]. apply Z.pow_lt_mono_r; lia.
  - destruct (bounded_cases m e Hv) as [[Hm He]|[Hm He]].
    + destruct (Z.ltb_spec (Z.pos m) (2 ^ mw)); [lia|].
      rewrite Z.pow_add_r, Z.pow_1_r in Hm by lia.
      assert (Hem : emin (prec mw) (emax ew) = 3 - emax ew - prec mw)
        by done.
      apply join_range; lia.
    + destruct (Z.ltb_spec (Z.pos m) (2 ^ mw)); [|lia].
      apply join_range; lia.
Qed.

(** Storing a value of the format into a slot of the format does
    not change it. *)
Theorem round_representable x :
  representable mw ew x = true -> round mw ew x = x.
Proof.
  unfold representable. destruct x as [s|s| |s m e]; simpl; try done.
  intros Hv. pose proof Hv as Hb.
  unfold bounded in Hb. apply andb_prop in Hb as [Hc Hle].
  unfold canonical_mantissa in Hc. apply Z.eqb_eq in Hc.
  unfold binary_round, shl_align. rewrite Hc, Z.sub_diag.
  unfold binary_round_aux, shr_fexp. simpl Zdigits2.
  rewrite Hc, Z.sub_diag. simpl.
  rewrite Hc, Z.sub_diag. simpl. by rewrite Hle.
Qed.
End FormatFacts.
End IEEEFacts.

(** * Properties of the accessors of [Buffer] *)

Module BufAccFacts.
Import Buf BufAcc BufFacts.

Lemma write_spec f e value offset s :
  write f e value offset s =
  if in_range f value then
    if checkBounds s offset (width f)
    then Ok (store e (width f) (bits f value) offset s)
    else Throw OutOfBounds
  else Throw ValueOutOfRange.
Proof.
  destruct f; simpl; unfold writeInt, writeFloating; try done;
    by destruct (_ || _).
Qed.

Lemma read_spec f e offset s :
  read f e offset s =
  if checkBounds s offset (width f)
  then Ok (unbits f (load e (width f) offset s))
  else Throw OutOfBounds.
Proof. by destruct f. Qed.

Lemma width_pos f : (0 < width f)%nat.
Proof. destruct f; simpl; lia. Qed.

Lemma fits_in_range f v : fits f v -> in_range f v = true.
Proof.
  destruct f; simpl; try done; intros H; apply negb_true_iff;
    apply orb_false_iff; split; apply Z.ltb_ge; lia.
Qed.

Lemma asIntN_mod (w : nat) v :
  (0 < w)%nat ->
  - 2 ^ (8 * Z.of_nat w - 1) <= v < 2 ^ (8 * Z.of_nat w - 1) ->
  asIntN w (v mod 2 ^ (8 * Z.of_nat w)) = v.
Proof.
  intros Hw Hv. unfold asIntN.
  set (k := 8 * Z.of_nat w) in *.
  assert (Hk : 2 ^ k = 2 * 2 ^ (k - 1)).
  { replace k with (Z.succ (k - 1)) at 1 by lia.
    rewrite Z.pow_succ_r by lia. done. }
  assert (0 < 2 ^ (k - 1)) by (apply Z.pow_pos_nonneg; lia).
  destruct (Z_lt_le_dec v 0) as [Hn|Hp].
  - rewrite <- (Z.mod_add v 1) by lia.
    rewrite Z.mod_small by lia.
    destruct (Z.ltb_spec (v + 1 * 2 ^ k) (2 ^ (k - 1))); lia.
  - rewrite Z.mod_small by lia.
    destruct (Z.ltb_spec v (2 ^ (k - 1))); lia.
Qed.

(** Decoding the stored octets of a representable value. *)
Lemma unbits_bits f v :
  fits f v -> unbits f (bits f v mod 2 ^ (8 * Z.of_nat (width f))) = v.
Proof.
  destruct f; simpl; intros Hv;
    try (apply (asIntN_mod _ v); [lia|exact Hv]);
    try (apply Z.mod_small; exact Hv).
  - rewrite IEEEFacts.round_representable by done.
    rewrite Z.mod_small by (apply (IEEEFacts.to_bits_range 23 8); done).
    apply IEEEFacts.of_to_bits; done.
  - rewrite IEEEFacts.round_representable by done.
    rewrite Z.mod_small by (apply (IEEEFacts.to_bits_range 52 11); done).
    apply IEEEFacts.of_to_bits; done.
Qed.

(** Round trip on the host buffer: a read at the offset of a
    successful write returns the written value. *)
Lemma read_write f e v offset s s' :
  fits f v ->
  write f e v offset s = Ok s' ->
  read f e offset s' = Ok v.
Proof.
  intros Hv. rewrite write_spec, read_spec.
  destruct (in_range f v); [|done].
  destruct (checkBounds s offset (width f)) eqn:Hb; [|done].
  intros [= <-].
  apply checkBounds_spec in Hb as [H0 H1]; [|apply width_pos].
  assert (Hb' : checkBounds (store e (width f) (bits f v) offset s)
                  offset (width f) = true).
  { apply checkBounds_spec; [apply width_pos|].
    rewrite length_store. done. }
  rewrite Hb', load_store by done. by rewrite unbits_bits.
Qed.

End BufAccFacts.

(** * Properties of the class *)

Section ClassFacts.
Import BufFacts BufAccFacts.

Lemma ensureCapacity_frame bytes this :
  position (snd (ensureCapacity bytes this)) = position this
  /\ endian (snd (ensureCapacity bytes this)) = endian this
  /\ window (stream (snd (ensureCapacity bytes this)))
     = window (stream this).
Proof.
  unfold ensureCapacity. destruct (_ <? _); [|done].
  destruct (Buf.resize _ _) eqn:E; [|done]. simpl.
  apply resize_Ok in E. tauto.
Qed.

Lemma ensureCapacity_Throw bytes this e :
  fst (ensureCapacity bytes this) = Throw e ->
  e = CapacityExceeded /\ snd (ensureCapacity bytes this) = this.
Proof.
  unfold ensureCapacity. destruct (_ <? _); [|done].
  unfold Buf.resize. destruct (_ || _); simpl; [|done].
  by intros [= <-].
Qed.

Lemma ensureCapacity_enough bytes this :
  bytes <= bytesAvailable this -> ensureCapacity bytes this = (Ok tt, this).
Proof.
  intros H. unfold ensureCapacity.
  destruct (Z.ltb_spec (bytesAvailable this) bytes); [lia|done].
Qed.

Lemma ensureCapacity_exceed bytes this :
  bytesAvailable this < bytes ->
  MAX_CAPACITY < get_length this + (bytes - bytesAvailable this) ->
  ensureCapacity bytes this = (Throw CapacityExceeded, this).
Proof.
  intros H1 H2. unfold ensureCapacity.
  destruct (Z.ltb_spec (bytesAvailable this) bytes); [|lia].
  by rewrite resize_throw.
Qed.

Lemma ensureCapacity_grow bytes this :
  window (stream this) = Tracking ->
  bytesAvailable this < bytes ->
  position this + bytes <= MAX_CAPACITY ->
  exists this',
    ensureCapacity bytes this = (Ok tt, this')
    /\ get_length this' = get_length this + (bytes - bytesAvailable this)
    /\ bytesAvailable this' = bytes
    /\ position this' = position this
    /\ endian this' = endian this
    /\ window (stream this') = Tracking.
Proof.
  intros Hw H1 H2. unfold ensureCapacity.
  destruct (Z.ltb_spec (bytesAvailable this) bytes); [|lia].
  unfold bytesAvailable in *.
  pose proof (length_bounds (stream this)).
  destruct (resize_tracking (stream this)
    (Buf.length (stream this)
     + (bytes - (Buf.length (stream this) - position this))))
    as (s' & -> & Hw' & Hl & _); [done|lia|].
  eexists; split; [done|]. unfold get_length; simpl.
  rewrite Hl. repeat split; try done; lia.
Qed.

Lemma ensureCapacity_mono bytes this :
  get_length this <= get_length (snd (ensureCapacity bytes this)).
Proof.
  unfold ensureCapacity.
  destruct (Z.ltb_spec (bytesAvailable this) bytes); [|simpl; lia].
  destruct (Buf.resize _ _) as [s'|] eqn:E; [|simpl; lia].
  apply resize_length in E; [simpl; unfold get_length; simpl; lia|].
  unfold bytesAvailable in *. lia.
Qed.

Lemma ensureCapacity_max bytes this :
  get_length this <= MAX_CAPACITY ->
  get_length (snd (ensureCapacity bytes this)) <= MAX_CAPACITY.
Proof.
  intros Hm. unfold ensureCapacity.
  destruct (Z.ltb_spec (bytesAvailable this) bytes); [|done].
  destruct (Buf.resize _ _) as [s'|] eqn:E; [|done].
  pose proof (resize_Ok _ _ _ E) as (Hn & _ & _).
  apply resize_length in E; [simpl; unfold get_length; simpl; lia|].
  unfold bytesAvailable in *. lia.
Qed.

Lemma executeCall_write_unfold func bytes value this :
  executeCall_write func bytes value this =
  match ensureCapacity bytes this with
  | (Ok _, this1) =>
      if Buf.has_method func (suffix bytes this) then
        match BufAcc.write func (suffix bytes this) value
                           (position this) (stream this1) with
        | Ok s' =>
            (Ok tt, mkDynBuffer s' (position this + bytes) (endian this))
        | Throw e => (Throw e, this1)
        end
      else (Throw NotAFunction, this1)
  | (Throw e, this1) => (Throw e, this1)
  end.
Proof.
  unfold executeCall_write, bind.
  pose proof (ensureCapacity_frame bytes this) as (Hp & He & _).
  destruct (ensureCapacity bytes this) as [[[]|e] this1]; simpl in *;
    [|done].
  unfold streamWrite. rewrite Hp, He.
  destruct (Buf.has_method _ _); [|done].
  by destruct (BufAcc.write _ _ _ _ _).
Qed.

Lemma executeCall_read_unfold func bytes this :
  executeCall_read func bytes this =
  if Buf.has_method func (suffix bytes this) then
    match BufAcc.read func (suffix bytes this) (position this)
                      (stream this) with
    | Ok v =>
        (Ok v, mkDynBuffer (stream this) (position this + bytes)
                           (endian this))
    | Throw e => (Throw e, this)
    end
  else (Throw NotAFunction, this).
Proof.
  unfold executeCall_read, bind, streamRead.
  destruct (Buf.has_method _ _); [|done].
  by destruct (BufAcc.read _ _ _ _).
Qed.

Lemma write_prim T v :
  write T v = executeCall_write (fn_of T) (byteWidth T) (toArg T v).
Proof. by destruct T. Qed.

Lemma read_prim T this :
  read T this =
  match executeCall_read (fn_of T) (byteWidth T) this with
  | (Ok a, this') => (Ok (ofArg T a), this')
  | (Throw e, this') => (Throw e, this')
  end.
Proof.
  destruct T; simpl; unfold readBoolean, readByte, readUnsignedByte,
    readShort, readUnsignedShort, readInt, readUnsignedInt, readFloat,
    readDouble, readLong, readUnsignedLong, bind, ret;
    by destruct (executeCall_read _ _ this) as [[a|e] this'].
Qed.

Lemma has_method_prim T this :
  Buf.has_method (fn_of T) (suffix (byteWidth T) this) = true.
Proof. by destruct T. Qed.

Lemma width_prim T : Z.of_nat (Buf.width (fn_of T)) = byteWidth T.
Proof. by destruct T. Qed.

Lemma fits_prim T v : representable T v -> BufAcc.fits (fn_of T) (toArg T v).
Proof. destruct T; simpl; try done. destruct v; lia. Qed.

Lemma ofArg_toArg T v : ofArg T (toArg T v) = v.
Proof. destruct T; simpl; try done. by destruct v. Qed.

(** What a typed write does. *)
Lemma write_unfold T v this :
  write T v this =
  match ensureCapacity (byteWidth T) this with
  | (Ok _, this1) =>
      match BufAcc.write (fn_of T) (suffix (byteWidth T) this) (toArg T v)
                         (position this) (stream this1) with
      | Ok s' =>
          (Ok tt, mkDynBuffer s' (position this + byteWidth T)
                              (endian this))
      | Throw e => (Throw e, this1)
      end
  | (Throw e, this1) => (Throw e, this1)
  end.
Proof.
  rewrite write_prim, executeCall_write_unfold.
  by rewrite has_method_prim.
Qed.

(** What a typed read does. *)
Lemma read_unfold T this :
  read T this =
  match BufAcc.read (fn_of T) (suffix (byteWidth T) this) (position this)
                    (stream this) with
  | Ok a =>
      (Ok (ofArg T a),
       mkDynBuffer (stream this) (position this + byteWidth T)
                   (endian this))
  | Throw e => (Throw e, this)
  end.
Proof.
  rewrite read_prim, executeCall_read_unfold, has_method_prim.
  by destruct (BufAcc.read _ _ _ _).
Qed.

(** Cursor of the typed accessors: advanced by the width on success,
    untouched on failure. *)
Lemma write_position T v this :
  position (snd (write T v this)) =
  match fst (write T v this) with
  | Ok _ => position this + byteWidth T
  | Throw _ => position this
  end.
Proof.
  rewrite write_unfold.
  pose proof (ensureCapacity_frame (byteWidth T) this) as (Hp & _).
  destruct (ensureCapacity _ this) as [[[]|e] this1]; simpl in *; [|done].
  by destruct (BufAcc.write _ _ _ _ _).
Qed.

Lemma read_position T this :
  position (snd (read T this)) =
  match fst (read T this) with
  | Ok _ => position this + byteWidth T
  | Throw _ => position this
  end.
Proof. rewrite read_unfold. by destruct (BufAcc.read _ _ _ _). Qed.

(** A typed write succeeds when the bytes are there, or when the
    stream still tracks its buffer and the ceiling is not crossed. *)
Lemma write_succeeds T v this :
  representable T v ->
  0 <= position this ->
  byteWidth T <= bytesAvailable this
  \/ (window (stream this) = Tracking
      /\ position this + byteWidth T <= MAX_CAPACITY) ->
  exists this', write T v this = (Ok tt, this').
Proof.
  intros Hv Hp Hroom. rewrite write_unfold.
  assert (exists this1,
    ensureCapacity (byteWidth T) this = (Ok tt, this1)
    /\ position this + byteWidth T <= Buf.length (stream this1))
    as (this1 & -> & Hlen).
  { destruct (Z_lt_le_dec (bytesAvailable this) (byteWidth T)) as [Hlt|Hge].
    - destruct Hroom as [?|[Hw Hmax]]; [lia|].
      destruct (ensureCapacity_grow _ _ Hw Hlt Hmax)
        as (this1 & E & Hl & Ha & Hp1 & _).
      exists this1. split; [done|].
      unfold bytesAvailable, get_length in *. lia.
    - exists this. rewrite ensureCapacity_enough by done.
      split; [done|]. unfold bytesAvailable in *. lia. }
  rewrite write_spec, (fits_in_range _ _ (fits_prim _ _ Hv)).
  assert (Buf.checkBounds (stream this1) (position this)
            (Buf.width (fn_of T)) = true) as ->.
  { apply checkBounds_spec; [apply width_pos|].
    rewrite width_prim. done. }
  by eexists.
Qed.

(** Round trip of a typed pair: after a successful write, a read at
    the position the write started from returns the value. *)
Lemma read_after_write T v this this' :
  representable T v ->
  write T v this = (Ok tt, this') ->
  read T (with_position (position this) this')
  = (Ok v, mkDynBuffer (stream this') (position this + byteWidth T)
                       (endian this')).
Proof.
  intros Hv. rewrite write_unfold.
  destruct (ensureCapacity _ this) as [[[]|e] this1]; [|done].
  destruct (BufAcc.write _ _ _ _ _) as [s'|] eqn:E; [|done].
  intros [= <-]. rewrite read_unfold. simpl.
  change (suffix (byteWidth T) _) with (suffix (byteWidth T) this).
  rewrite (read_write _ _ _ _ _ _ (fits_prim _ _ Hv) E).
  by rewrite ofArg_toArg.
Qed.

End ClassFacts.

(** ** The text methods *)

Section TextFacts.
Variable iconv : Iconv.

Lemma readMultiByte_unfold length charSet this :
  readMultiByte iconv length charSet this =
  if encodingExists iconv charSet then
    (Ok (decode iconv
           (Buf.subarray_bytes (stream this) (position this)
                               (JSNumber.add (position this) length))
           charSet),
     mkDynBuffer (stream this) (JSNumber.add (position this) length)
                 (endian this))
  else (Throw UnsupportedEncoding, this).
Proof.
  unfold readMultiByte. by destruct (encodingExists iconv charSet).
Qed.

(** A sum that stays within [2 ^ 53] in magnitude is exact. *)
Lemma JSNumber_add_exact a b :
  - 2 ^ 53 <= a + b <= 2 ^ 53 -> JSNumber.add a b = a + b.
Proof.
  intros H. unfold JSNumber.add, JSNumber.MAX_SAFE.
  destruct (Z.leb_spec (- 2 ^ 53) (a + b)), (Z.leb_spec (a + b) (2 ^ 53));
    try lia; done.
Qed.

(** Cursor of [readMultiByte]: advanced by [length] on success (the
    sum being exact up to [2 ^ 53]), untouched on failure. *)
Lemma readMultiByte_position length charSet this :
  - 2 ^ 53 <= position this + length <= 2 ^ 53 ->
  position (snd (readMultiByte iconv length charSet this)) =
  match fst (readMultiByte iconv length charSet this) with
  | Ok _ => position this + length
  | Throw _ => position this
  end.
Proof.
  intros H. rewrite readMultiByte_unfold.
  destruct (encodingExists iconv charSet); [|done].
  simpl. by apply JSNumber_add_exact.
Qed.

Lemma writeMultiByte_unfold value charSet source this :
  writeMultiByte iconv value charSet source this =
  if encodingExists iconv charSet then
    if source then
      match writeUnsignedShort
              (Z.of_nat (List.length (encode iconv value charSet))) this
      with
      | (Ok _, this') => (Ok tt, this')
      | (Throw e, this') => (Throw e, this')
      end
    else (Ok tt, this)
  else (Throw UnsupportedEncoding, this).
Proof.
  unfold writeMultiByte. destruct (encodingExists iconv charSet); [|done].
  simpl. unfold bind, writeBytes, ret. destruct source; [|done].
  by destruct (writeUnsignedShort _ this) as [[[]|e] this'].
Qed.
Lemma subarray_bytes_forward s p L :
  0 <= p -> 0 <= L ->
  Buf.subarray_bytes s p (p + L)
  = take (Z.to_nat L) (drop (Z.to_nat p) (Buf.bytes s)).
Proof.
  intros Hp HL. unfold Buf.subarray_bytes, Buf.bytes, Buf.clamp.
  pose proof (BufFacts.length_bounds s) as Hb.
  destruct (Z.ltb_spec p 0); [lia|].
  destruct (Z.ltb_spec (p + L) 0); [lia|].
  destruct (Z_lt_le_dec p (Buf.length s)) as [Hin|Hout].
  - rewrite (Z.min_l p) by lia.
    replace (Z.to_nat (Buf.length s))
      with (Z.to_nat p + (Z.to_nat (Buf.length s) - Z.to_nat p))%nat by lia.
    rewrite <- take_drop_commute, take_take. f_equal. lia.
  - rewrite (Z.min_r p) by lia. rewrite (Z.min_r (p + L)) by lia.
    replace (Z.to_nat (Z.max (Buf.length s - Buf.length s) 0)) with 0%nat
      by lia.
    rewrite take_0. symmetry.
    rewrite drop_ge by (rewrite length_take; lia). by rewrite take_nil.
Qed.

Lemma length_bytes s : List.length (Buf.bytes s) = Z.to_nat (Buf.length s).
Proof.
  unfold Buf.bytes. rewrite length_take.
  pose proof (BufFacts.length_bounds s). lia.
Qed.

(** [readMultiByte] from a non-negative position, for a non-negative
    count and a sum within [2 ^ 53]. *)
Lemma readMultiByte_forward length charSet this :
  encodingExists iconv charSet = true ->
  0 <= position this ->
  0 <= length ->
  position this + length <= 2 ^ 53 ->
  readMultiByte iconv length charSet this =
  (Ok (decode iconv
         (take (Z.to_nat length)
               (drop (Z.to_nat (position this)) (Buf.bytes (stream this))))
         charSet),
   mkDynBuffer (stream this) (position this + length) (endian this)).
Proof.
  intros Hx Hp HL Hsum. rewrite readMultiByte_unfold, Hx.
  rewrite JSNumber_add_exact by lia.
  by rewrite subarray_bytes_forward.
Qed.

End TextFacts.

(** ** The length of the stream *)

Section LengthInvariant.
Import BufFacts BufAccFacts.

Lemma write_keeps_length f e v offset s s' :
  BufAcc.write f e v offset s = Ok s' -> Buf.length s' = Buf.length s.
Proof.
  rewrite write_spec. destruct (BufAcc.in_range f v); [|done].
  destruct (Buf.checkBounds _ _ _); [|done].
  intros [= <-]. apply length_store.
Qed.

Lemma set_length_shrinks value this :
  get_length (snd (set_length value this)) <= get_length this.
Proof.
  unfold set_length, get_length.
  destruct (Z.ltb_spec (Buf.length (stream this)) value); simpl; [lia|].
  pose proof (length_bounds (stream this)) as Hb.
  unfold Buf.subarray0, Buf.length at 1. simpl.
  destruct (Nat.leb_spec
    (Z.to_nat (Z.max (Buf.clamp (Buf.length (stream this)) value - 0) 0))
    (List.length (buffer (stream this)))); [|lia].
  unfold Buf.clamp. destruct (Z.ltb_spec value 0); lia.
Qed.

Lemma write_length_max T v this :
  get_length this <= MAX_CAPACITY ->
  get_length (snd (write T v this)) <= MAX_CAPACITY.
Proof.
  intros Hm. rewrite write_unfold.
  pose proof (ensureCapacity_max (byteWidth T) this Hm) as H1.
  destruct (ensureCapacity _ this) as [[[]|e] this1]; simpl in *; [|done].
  destruct (BufAcc.write _ _ _ _ _) as [s'|] eqn:E; simpl; [|done].
  apply write_keeps_length in E. unfold get_length in *. simpl. lia.
Qed.

Lemma read_keeps_stream T this : stream (snd (read T this)) = stream this.
Proof. rewrite read_unfold. by destruct (BufAcc.read _ _ _ _). Qed.

Lemma readMultiByte_keeps_stream iconv length charSet this :
  stream (snd (readMultiByte iconv length charSet this)) = stream this.
Proof.
  rewrite readMultiByte_unfold. by destruct (encodingExists _ _).
Qed.

Lemma writeMultiByte_length_max iconv value charSet source this :
  get_length this <= MAX_CAPACITY ->
  get_length (snd (writeMultiByte iconv value charSet source this))
  <= MAX_CAPACITY.
Proof.
  intros Hm. rewrite writeMultiByte_unfold.
  destruct (encodingExists _ _); [|done]. destruct source; [|done].
  pose proof (write_length_max TUnsignedShort
    (Z.of_nat (List.length (encode iconv value charSet))) this Hm) as H.
  simpl in H.
  by destruct (writeUnsignedShort _ this) as [[[]|e] this'].
Qed.

Lemma snd_returning {A} (f : A -> result) (m : M A) this :
  snd (returning f m this) = snd (m this).
Proof. unfold returning, bind, ret. by destruct (m this) as [[a|e] ?]. Qed.

Lemma exec_length_max iconv o this :
  get_length this <= MAX_CAPACITY ->
  get_length (snd (exec iconv o this)) <= MAX_CAPACITY.
Proof.
  intros Hm. destruct o; unfold exec; rewrite snd_returning.
  - pose proof (set_length_shrinks value this). lia.
  - done.
  - done.
  - pose proof (set_length_shrinks 0
      (mkDynBuffer (stream this) 0 (endian this))) as H.
    unfold clear, bind, set_position. simpl in *.
    unfold get_length in *. simpl in *. lia.
  - by apply write_length_max.
  - unfold get_length. by rewrite read_keeps_stream.
  - done.
  - done.
  - by apply writeMultiByte_length_max.
  - unfold get_length. by rewrite readMultiByte_keeps_stream.
  - by apply writeMultiByte_length_max.
  - unfold readUTF, bind.
    pose proof (read_keeps_stream TUnsignedShort this) as H.
    change (read TUnsignedShort) with readUnsignedShort in H.
    unfold get_length in *.
    destruct (readUnsignedShort this) as [[n|e] this'].
    + rewrite readMultiByte_keeps_stream. simpl in H. by rewrite H.
    + simpl in H |- *. by rewrite H.
  - by apply writeMultiByte_length_max.
  - unfold readUTFBytes, get_length.
    by rewrite readMultiByte_keeps_stream.
Qed.

Lemma write_exceed T v this :
  bytesAvailable this < byteWidth T ->
  MAX_CAPACITY < get_length this + (byteWidth T - bytesAvailable this) ->
  write T v this = (Throw CapacityExceeded, this).
Proof.
  intros H1 H2. rewrite write_unfold.
  by rewrite ensureCapacity_exceed.
Qed.
End LengthInvariant.

(** ** Byte order *)

Section Endianness.
Import BufFacts BufAccFacts.

Lemma ensureCapacity_with_endian e bytes this :
  ensureCapacity bytes (with_endian e this) =
  (fst (ensureCapacity bytes this),
   with_endian e (snd (ensureCapacity bytes this))).
Proof.
  unfold ensureCapacity, with_endian, set_endian, bytesAvailable. simpl.
  destruct (_ <? _); [|done]. by destruct (Buf.resize _ _).
Qed.

Lemma suffix_wide T e this :
  2 <= byteWidth T -> suffix (byteWidth T) (with_endian e this) = Some e.
Proof. by destruct T; simpl; try lia. Qed.

(** The bytes a successful typed write of a wide type leaves at the
    position it started from. *)
Lemma write_bytes T e v this this' :
  2 <= byteWidth T ->
  write T v (with_endian e this) = (Ok tt, this') ->
  bytesAt this' (position this) (byteWidth T)
  = match e with
    | BE => rev (Buf.octets (Buf.width (fn_of T))
                            (BufAcc.bits (fn_of T) (toArg T v)))
    | LE => Buf.octets (Buf.width (fn_of T))
                       (BufAcc.bits (fn_of T) (toArg T v))
    end.
Proof.
  intros Hw. rewrite write_unfold, ensureCapacity_with_endian.
  rewrite suffix_wide by done.
  destruct (fst (ensureCapacity _ this)) as [[]|]; [|done].
  simpl. generalize (stream (snd (ensureCapacity (byteWidth T) this))).
  intros s1. rewrite write_spec.
  destruct (BufAcc.in_range _ _); [|done].
  destruct (Buf.checkBounds _ _ _) eqn:Hb; [|done].
  apply checkBounds_spec in Hb as [H0 H1]; [|apply width_pos].
  intros [= <-]. unfold bytesAt. simpl.
  rewrite <- width_prim.
  destruct e; simpl; [by apply bytes_storeBE|by apply bytes_storeLE].
Qed.

(** Whether a typed write succeeds does not depend on the byte
    order. *)
Lemma write_succeeds_either T v e1 e2 this this1 :
  2 <= byteWidth T ->
  write T v (with_endian e1 this) = (Ok tt, this1) ->
  exists this2, write T v (with_endian e2 this) = (Ok tt, this2).
Proof.
  intros Hw. rewrite !write_unfold, !ensureCapacity_with_endian.
  rewrite !suffix_wide by done.
  destruct (fst (ensureCapacity _ this)) as [[]|]; [|done].
  simpl. rewrite !write_spec.
  destruct (BufAcc.in_range _ _); [|done].
  destruct (Buf.checkBounds _ _ _); [|done].
  intros _. by eexists.
Qed.
End Endianness.

(** * Scenarios *)

(** Fresh buffer, default [BE]: [writeUnsignedInt(0x12345678)]. *)
Example scenario_writeUnsignedInt_BE :
  writeUnsignedInt 305419896 constructor
  = (Ok tt, mkDynBuffer (mkBuffer [x12; x34; x56; x78] Tracking) 4 BE).
Proof. reflexivity. Qed.

(** The same value after [endian = 'LE']. *)
Example scenario_writeUnsignedInt_LE :
  (set_endian LE ;;; writeUnsignedInt 305419896) constructor
  = (Ok tt, mkDynBuffer (mkBuffer [x78; x56; x34; x12] Tracking) 4 LE).
Proof. reflexivity. Qed.

(** [writeBoolean(true)], [position = 0], [readByte()]. *)
Example scenario_writeBoolean_readByte :
  fst ((writeBoolean true ;;; set_position 0 ;;; readByte) constructor)
  = Ok 1.
Proof. reflexivity. Qed.

(** [writeFloat(1.5)], [position = 0], [readFloat()]: the stored bytes
    are [3f c0 00 00]. *)
Example scenario_writeFloat_readFloat :
  (writeFloat (S754_finite false 12582912 (-23)) ;;; set_position 0 ;;;
   readFloat) constructor
  = (Ok (S754_finite false 12582912 (-23)),
     mkDynBuffer (mkBuffer [x3f; xc0; x00; x00] Tracking) 4 BE).
Proof. reflexivity. Qed.

(** [writeDouble(-3)] under [LE], [position = 0], [readDouble()]. *)
Example scenario_writeDouble_readDouble :
  (set_endian LE ;;; writeDouble (S754_finite true 3 0) ;;;
   set_position 0 ;;; readDouble) constructor
  = (Ok (S754_finite true 6755399441055744 (-51)),
     mkDynBuffer
       (mkBuffer [x00; x00; x00; x00; x00; x00; x08; xc0] Tracking) 8 LE).
Proof. reflexivity. Qed.

(** After [clear()] the stream is a fixed view of length 0:
    [writeByte(1)] resizes the [ArrayBuffer] and then throws, since the
    view does not follow. *)
Example scenario_write_after_clear :
  (clear ;;; writeByte 1) fourBytesAtOne
  = (Throw OutOfBounds, mkDynBuffer (mkBuffer [x12] (Fixed 0)) 0 BE).
Proof. reflexivity. Qed.

(** [readMultiByte(5, 'bogus-charset')] *)
Example scenario_bogus_charset :
  readMultiByte sampleIconv 5 "bogus-charset" fourBytesAtOne
  = (Throw UnsupportedEncoding, fourBytesAtOne).
Proof. reflexivity. Qed.

(** [position = 1], [readMultiByte(2 ** 53, 'utf8')]: the three bytes
    that remain are decoded, and the position becomes [2 ** 53], the
    double nearest to [1 + 2 ** 53]. *)
Example scenario_readMultiByte_rounds :
  readMultiByte sampleIconv (2 ^ 53) "utf8" fourBytesAtOne
  = (Ok (decode sampleIconv [x34; x56; x78] "utf8"),
     mkDynBuffer (stream fourBytesAtOne) (2 ^ 53) BE).
Proof. vm_compute. reflexivity. Qed.

(** * The claims *)

(** ** C1 *)

(** C1, as stated, fails: a read called immediately after a write
    starts at the advanced cursor.  On a fresh buffer
    [writeUnsignedByte(5)] followed by [readUnsignedByte()] throws an
    offset error instead of returning 5. *)
Lemma C1_read_right_after_write_fails :
  representable TUnsignedByte 5
  /\ fst ((write TUnsignedByte 5 ;;; read TUnsignedByte) constructor)
     = Throw OutOfBounds
  /\ fst ((write TUnsignedByte 5 ;;; read TUnsignedByte) constructor)
     <> Ok 5.
Proof. split; [simpl; lia|]. split; [reflexivity|discriminate]. Qed.

(** C1, amended: for every supported primitive type [T] and every
    value [v] representable in [T], a write of [v] succeeds from every
    state whose stream is the constructor's view, with a non-negative
    position and [position + width <= 2 ^ 30]; and whenever the write
    succeeds, setting [position] back to where the write started and
    calling the read accessor of [T] (same byte order) returns [v]. *)
Theorem write_then_rewind_read (T : prim) (v : val T) (this : DynBuffer) :
  representable T v ->
  (0 <= position this ->
   window (stream this) = Tracking ->
   position this + byteWidth T <= MAX_CAPACITY ->
   exists this', write T v this = (Ok tt, this'))
  /\ (forall this',
        write T v this = (Ok tt, this') ->
        endian this' = endian this
        /\ fst ((set_position (position this) ;;; read T) this') = Ok v).
Proof.
  intros Hv. split.
  - intros Hp Hw Hmax. apply write_succeeds; auto.
  - intros this' E. split.
    + rewrite write_unfold in E.
      destruct (ensureCapacity _ this) as [[[]|e] this1]; [|done].
      destruct (BufAcc.write _ _ _ _ _); [|done]. by injection E as <-.
    + unfold bind, set_position.
      change (mkDynBuffer (stream this') (position this) (endian this'))
        with (with_position (position this) this').
      by rewrite (read_after_write T v this this' Hv E).
Qed.

Lemma write_then_rewind_read_witness :
  representable TInt (-2)
  /\ 0 <= position constructor
  /\ window (stream constructor) = Tracking
  /\ position constructor + byteWidth TInt <= MAX_CAPACITY
  /\ (exists this', write TInt (-2) constructor = (Ok tt, this'))
  /\ fst ((set_position (position constructor) ;;; read TInt)
            (snd (write TInt (-2) constructor))) = Ok (-2).
Proof.
  assert (H : representable TInt (-2)) by (simpl; lia).
  assert (H0 : 0 <= position constructor) by reflexivity.
  assert (H1 : window (stream constructor) = Tracking) by reflexivity.
  assert (H2 : position constructor + byteWidth TInt <= MAX_CAPACITY)
    by (vm_compute; discriminate).
  split; [exact H|]. split; [exact H0|]. split; [exact H1|].
  split; [exact H2|].
  split.
  - exact (proj1 (write_then_rewind_read TInt (-2) constructor H) H0 H1 H2).
  - apply (proj2 (write_then_rewind_read TInt (-2) constructor H)).
    reflexivity.
Defined.

(** ** C2 *)

(** C2 at its failing inputs.  With a codec that knows [utf8] and
    encodes ["hi"] as the two bytes [68 69], on a fresh buffer
    [writeUTFBytes("hi")] succeeds and leaves the position at 0, and
    [writeUTF("hi")] succeeds and leaves it at 2: the cursor moves by
    the length prefix only, never by the encoded text, because
    [writeBytes] has an empty body. *)
Theorem text_writes_skip_payload (iconv : Iconv) :
  encodingExists iconv "utf8" = true ->
  encode iconv "hi" "utf8" = [x68; x69] ->
  writeUTFBytes iconv "hi" constructor = (Ok tt, constructor)
  /\ fst (writeUTF iconv "hi" constructor) = Ok tt
  /\ position (snd (writeUTF iconv "hi" constructor))
     = position constructor + 2
  /\ position (snd (writeUTF iconv "hi" constructor))
     <> position constructor
        + (2 + Z.of_nat (List.length (encode iconv "hi" "utf8"))).
Proof.
  intros Hx He. unfold writeUTFBytes, writeUTF.
  rewrite !writeMultiByte_unfold, Hx, He. simpl List.length.
  split; [done|]. vm_compute. repeat split; congruence.
Qed.

Lemma text_writes_skip_payload_witness :
  encodingExists sampleIconv "utf8" = true
  /\ encode sampleIconv "hi" "utf8" = [x68; x69]
  /\ writeUTFBytes sampleIconv "hi" constructor = (Ok tt, constructor)
  /\ position (snd (writeUTF sampleIconv "hi" constructor)) = 2.
Proof.
  assert (Hx : encodingExists sampleIconv "utf8" = true) by reflexivity.
  assert (He : encode sampleIconv "hi" "utf8" = [x68; x69]) by reflexivity.
  split; [exact Hx|]. split; [exact He|].
  destruct (text_writes_skip_payload sampleIconv Hx He) as (H1 & _ & H2 & _).
  split; [exact H1|exact H2].
Defined.

(** ** C3 *)

Lemma fourBytesAtOne_reached :
  snd ((writeUnsignedInt 305419896 ;;; set_position 1) constructor)
  = fourBytesAtOne.
Proof. reflexivity. Qed.

(** C3, as stated, fails: with length 4 and position 1, [length = 2]
    leaves position 2, not [min(1, 2) = 1]; the position is not kept
    although it was at most the new length. *)
Lemma C3_position_not_min :
  2 <= get_length fourBytesAtOne
  /\ position fourBytesAtOne <= 2
  /\ position (snd (set_length 2 fourBytesAtOne)) = 2
  /\ position (snd (set_length 2 fourBytesAtOne))
     <> Z.min (position fourBytesAtOne) 2.
Proof. vm_compute. repeat split; congruence. Qed.

(** C3, amended: for every state and every [n] with
    [0 <= n <= length], [length = n] truncates the stream to its first
    [n] bytes and sets [position] to [n], the new length, whatever the
    old position; this is [min(old position, n)] when the old position
    was at least [n]. *)
Theorem set_length_truncates (n : Z) (this : DynBuffer) :
  0 <= n <= get_length this ->
  fst (set_length n this) = Ok tt
  /\ Buf.bytes (stream (snd (set_length n this)))
     = take (Z.to_nat n) (Buf.bytes (stream this))
  /\ get_length (snd (set_length n this)) = n
  /\ position (snd (set_length n this)) = n
  /\ endian (snd (set_length n this)) = endian this
  /\ (n <= position this ->
      position (snd (set_length n this)) = Z.min (position this) n).
Proof.
  intros Hn. unfold set_length, get_length in *.
  destruct (Z.ltb_spec (Buf.length (stream this)) n); [lia|]. simpl.
  pose proof (BufFacts.length_bounds (stream this)) as Hb.
  assert (Hl : Buf.length (Buf.subarray0 (stream this) n) = n).
  { unfold Buf.subarray0, Buf.length at 1. simpl.
    rewrite BufFacts.clamp_in by lia.
    destruct (Nat.leb_spec (Z.to_nat (Z.max (n - 0) 0))
                (List.length (buffer (stream this)))); lia. }
  rewrite Hl. repeat split; try lia.
  unfold Buf.bytes. rewrite Hl. simpl.
  rewrite take_take. f_equal. lia.
Qed.

Lemma set_length_truncates_witness :
  0 <= 2 <= get_length fourBytesAtOne
  /\ Buf.bytes (stream (snd (set_length 2 fourBytesAtOne))) = [x12; x34]
  /\ position (snd (set_length 2 fourBytesAtOne)) = 2.
Proof.
  assert (H : 0 <= 2 <= get_length fourBytesAtOne)
    by (vm_compute; split; discriminate).
  split; [exact H|].
  destruct (set_length_truncates 2 fourBytesAtOne H)
    as (_ & Hb & _ & Hp & _).
  split; [rewrite Hb; reflexivity|exact Hp].
Defined.

(** ** C4 *)

(** C4 at its failing input.  On a fresh big-endian buffer
    [writeUTF("hi")] stores the two bytes [00 02] of the length prefix
    and nothing else, so the buffer is not [00 02 68 69]; [readUTF()]
    from position 0 then reads the prefix, finds no byte after it, and
    returns what the codec makes of the empty byte sequence, with the
    position at 4, past the length 2. *)
Theorem writeUTF_hi_stores_prefix_only (iconv : Iconv) :
  encodingExists iconv "utf8" = true ->
  encode iconv "hi" "utf8" = [x68; x69] ->
  writeUTF iconv "hi" constructor
  = (Ok tt, mkDynBuffer (mkBuffer [x00; x02] Tracking) 2 BE)
  /\ Buf.bytes (stream (snd (writeUTF iconv "hi" constructor)))
     <> [x00; x02; x68; x69]
  /\ (set_position 0 ;;; readUTF iconv)
       (snd (writeUTF iconv "hi" constructor))
     = (Ok (decode iconv [] "utf8"),
        mkDynBuffer (mkBuffer [x00; x02] Tracking) 4 BE).
Proof.
  intros Hx He.
  assert (E : writeUTF iconv "hi" constructor
              = (Ok tt, mkDynBuffer (mkBuffer [x00; x02] Tracking) 2 BE)).
  { unfold writeUTF. rewrite writeMultiByte_unfold, Hx, He. reflexivity. }
  rewrite E. split; [done|]. split; [discriminate|].
  unfold bind, set_position, readUTF, bind. simpl.
  rewrite readMultiByte_unfold, Hx. reflexivity.
Qed.

Lemma writeUTF_hi_stores_prefix_only_witness :
  encodingExists sampleIconv "utf8" = true
  /\ encode sampleIconv "hi" "utf8" = [x68; x69]
  /\ Buf.bytes (stream (snd (writeUTF sampleIconv "hi" constructor)))
     = [x00; x02]
  /\ fst ((set_position 0 ;;; readUTF sampleIconv)
            (snd (writeUTF sampleIconv "hi" constructor)))
     = Ok EmptyString.
Proof.
  assert (Hx : encodingExists sampleIconv "utf8" = true) by reflexivity.
  assert (He : encode sampleIconv "hi" "utf8" = [x68; x69]) by reflexivity.
  split; [exact Hx|]. split; [exact He|].
  destruct (writeUTF_hi_stores_prefix_only sampleIconv Hx He)
    as (H1 & _ & H2).
  split; [rewrite H1; reflexivity|rewrite H2; reflexivity].
Defined.

(** ** C5 *)

(** C5, as stated, fails for [readMultiByte]: on a fresh (empty)
    buffer [readMultiByte(5, 'utf8')] does not fail; it returns the
    decoding of no bytes and moves the position to 5. *)
Lemma C5_readMultiByte_past_end_succeeds :
  bytesAvailable constructor < 5
  /\ readMultiByte sampleIconv 5 "utf8" constructor
     = (Ok EmptyString, mkDynBuffer (mkBuffer [] Tracking) 5 BE)
  /\ fst (readMultiByte sampleIconv 5 "utf8" constructor)
     <> Throw OutOfBounds
  /\ position (snd (readMultiByte sampleIconv 5 "utf8" constructor))
     <> position constructor.
Proof. vm_compute. repeat split; congruence. Qed.

(** C5, amended: a typed read of width [w] with fewer than [w] bytes
    between position and length fails with [OutOfBounds] and leaves the
    state (position and length included) unchanged.  [readMultiByte]
    with a known character set does not fail when fewer than [L] bytes
    remain: from a non-negative position, with [position + L] at most
    [2 ^ 53], it returns the decoding of all the bytes that remain
    from the position to the end of the stream (none when the position
    is at or past the end), sets the position to [position + L] and
    leaves the stream, hence the length, unchanged. *)
Theorem reads_near_the_end (this : DynBuffer) :
  (forall T : prim,
     bytesAvailable this < byteWidth T ->
     read T this = (Throw OutOfBounds, this))
  /\ (forall (iconv : Iconv) (L : Z) (charSet : string),
        encodingExists iconv charSet = true ->
        0 <= position this ->
        0 <= L ->
        bytesAvailable this < L ->
        position this + L <= 2 ^ 53 ->
        readMultiByte iconv L charSet this =
        (Ok (decode iconv
               (drop (Z.to_nat (position this)) (Buf.bytes (stream this)))
               charSet),
         mkDynBuffer (stream this) (position this + L) (endian this))).
Proof.
  split.
  - intros T Hshort. rewrite read_unfold, BufAccFacts.read_spec.
    destruct (Buf.checkBounds _ _ _) eqn:Hb; [|done].
    apply BufFacts.checkBounds_spec in Hb; [|apply BufAccFacts.width_pos].
    rewrite width_prim in Hb. unfold bytesAvailable in Hshort. lia.
  - intros iconv L charSet Hx Hp HL Hshort Hsum.
    rewrite readMultiByte_forward by done.
    rewrite take_ge; [done|].
    rewrite length_drop, length_bytes.
    pose proof (BufFacts.length_bounds (stream this)).
    unfold bytesAvailable in Hshort. lia.
Qed.

Lemma reads_near_the_end_witness :
  bytesAvailable fourBytesAtOne < byteWidth TInt
  /\ read TInt fourBytesAtOne = (Throw OutOfBounds, fourBytesAtOne)
  /\ encodingExists sampleIconv "utf8" = true
  /\ 0 <= position fourBytesAtOne
  /\ 0 <= 5
  /\ bytesAvailable fourBytesAtOne < 5
  /\ position fourBytesAtOne + 5 <= 2 ^ 53
  /\ readMultiByte sampleIconv 5 "utf8" fourBytesAtOne
     = (Ok (decode sampleIconv [x34; x56; x78] "utf8"),
        mkDynBuffer (stream fourBytesAtOne) 6 BE).
Proof.
  assert (H1 : bytesAvailable fourBytesAtOne < byteWidth TInt)
    by reflexivity.
  assert (H2 : encodingExists sampleIconv "utf8" = true) by reflexivity.
  assert (H3 : 0 <= position fourBytesAtOne) by (vm_compute; discriminate).
  assert (H4 : 0 <= 5) by (vm_compute; discriminate).
  assert (H5 : bytesAvailable fourBytesAtOne < 5) by reflexivity.
  assert (H6 : position fourBytesAtOne + 5 <= 2 ^ 53)
    by (vm_compute; discriminate).
  split; [exact H1|].
  split; [exact (proj1 (reads_near_the_end fourBytesAtOne) TInt H1)|].
  split; [exact H2|]. split; [exact H3|]. split; [exact H4|].
  split; [exact H5|]. split; [exact H6|].
  exact (proj2 (reads_near_the_end fourBytesAtOne)
           sampleIconv 5 "utf8"%string H2 H3 H4 H5 H6).
Defined.

(** ** C6 *)

(** C6: with a character-set name the codec service does not know,
    [writeMultiByte] and [readMultiByte] throw [UnsupportedEncoding]
    and leave the buffer state as it was. *)
Theorem unknown_charset_rejected (iconv : Iconv) (charSet : string)
    (this : DynBuffer) :
  encodingExists iconv charSet = false ->
  (forall (value : string) (source : bool),
     writeMultiByte iconv value charSet source this
     = (Throw UnsupportedEncoding, this))
  /\ (forall length : Z,
        readMultiByte iconv length charSet this
        = (Throw UnsupportedEncoding, this)).
Proof.
  intros Hx. split; intros.
  - by rewrite writeMultiByte_unfold, Hx.
  - by rewrite readMultiByte_unfold, Hx.
Qed.

Lemma unknown_charset_rejected_witness :
  encodingExists sampleIconv "bogus-charset" = false
  /\ readMultiByte sampleIconv 5 "bogus-charset" fourBytesAtOne
     = (Throw UnsupportedEncoding, fourBytesAtOne)
  /\ writeMultiByte sampleIconv "hi" "bogus-charset" true fourBytesAtOne
     = (Throw UnsupportedEncoding, fourBytesAtOne).
Proof.
  assert (H : encodingExists sampleIconv "bogus-charset" = false)
    by reflexivity.
  split; [exact H|].
  destruct (unknown_charset_rejected sampleIconv "bogus-charset"%string
              fourBytesAtOne H) as [Hw Hr].
  split; [exact (Hr 5)|exact (Hw "hi"%string true)].
Defined.

(** ** C7 *)

Lemma atCeiling_reached :
  snd (set_position (2 ^ 30) constructor) = atCeiling.
Proof. reflexivity. Qed.

(** C7, as stated, fails: on a fresh buffer with [position = 2 ** 30],
    [#ensureCapacity(1)] has fewer bytes available than requested but
    does not grow the buffer by the deficit; it throws and the length
    stays 0. *)
Lemma C7_no_growth_at_ceiling :
  bytesAvailable atCeiling < 1
  /\ ensureCapacity 1 atCeiling = (Throw CapacityExceeded, atCeiling)
  /\ get_length (snd (ensureCapacity 1 atCeiling))
     <> get_length atCeiling + (1 - bytesAvailable atCeiling).
Proof. vm_compute. repeat split; congruence. Qed.

(** C7, amended: in a state whose stream is the view made by the
    constructor and for [b] with [position + b <= 2 ^ 30], if
    [bytesAvailable < b] then [#ensureCapacity(b)] grows the buffer by
    exactly [b - bytesAvailable], after which [bytesAvailable = b]; in
    every state, if [bytesAvailable >= b] it changes nothing; and in
    every state the new length is never less than the old one. *)
Theorem ensureCapacity_growth (b : Z) (this : DynBuffer) :
  (window (stream this) = Tracking ->
   bytesAvailable this < b ->
   position this + b <= MAX_CAPACITY ->
   fst (ensureCapacity b this) = Ok tt
   /\ get_length (snd (ensureCapacity b this))
      = get_length this + (b - bytesAvailable this)
   /\ bytesAvailable (snd (ensureCapacity b this)) = b)
  /\ (b <= bytesAvailable this -> ensureCapacity b this = (Ok tt, this))
  /\ get_length this <= get_length (snd (ensureCapacity b this)).
Proof.
  split; [|split].
  - intros Hw Hlt Hmax.
    destruct (ensureCapacity_grow b this Hw Hlt Hmax)
      as (this' & -> & Hl & Ha & _). done.
  - apply ensureCapacity_enough.
  - apply ensureCapacity_mono.
Qed.

Lemma ensureCapacity_growth_witness :
  window (stream fourBytesAtOne) = Tracking
  /\ bytesAvailable fourBytesAtOne < 8
  /\ position fourBytesAtOne + 8 <= MAX_CAPACITY
  /\ get_length (snd (ensureCapacity 8 fourBytesAtOne)) = 9
  /\ ensureCapacity 2 fourBytesAtOne = (Ok tt, fourBytesAtOne).
Proof.
  assert (H1 : window (stream fourBytesAtOne) = Tracking) by reflexivity.
  assert (H2 : bytesAvailable fourBytesAtOne < 8) by reflexivity.
  assert (H3 : position fourBytesAtOne + 8 <= MAX_CAPACITY)
    by (vm_compute; discriminate).
  assert (H4 : 2 <= bytesAvailable fourBytesAtOne)
    by (vm_compute; discriminate).
  split; [exact H1|]. split; [exact H2|]. split; [exact H3|].
  split.
  - rewrite (proj1 (proj2 (proj1 (ensureCapacity_growth 8 fourBytesAtOne)
                             H1 H2 H3))).
    reflexivity.
  - exact (proj1 (proj2 (ensureCapacity_growth 2 fourBytesAtOne)) H4).
Defined.

(** ** C8 *)

(** C8: [0 <= length <= MAX_CAPACITY], with [MAX_CAPACITY = 2 ^ 30],
    holds for a fresh buffer and after every public operation run from
    a state where it holds; a growth request whose resulting length
    would exceed [MAX_CAPACITY] throws [CapacityExceeded] and changes
    nothing, in [#ensureCapacity] and so in every typed write. *)
Theorem length_within_capacity :
  MAX_CAPACITY = 2 ^ 30
  /\ 0 <= get_length constructor <= MAX_CAPACITY
  /\ (forall (iconv : Iconv) (o : op) (this : DynBuffer),
        0 <= get_length this <= MAX_CAPACITY ->
        0 <= get_length (snd (exec iconv o this)) <= MAX_CAPACITY)
  /\ (forall (bytes : Z) (this : DynBuffer),
        bytesAvailable this < bytes ->
        MAX_CAPACITY < get_length this + (bytes - bytesAvailable this) ->
        ensureCapacity bytes this = (Throw CapacityExceeded, this))
  /\ (forall (T : prim) (v : val T) (this : DynBuffer),
        bytesAvailable this < byteWidth T ->
        MAX_CAPACITY
        < get_length this + (byteWidth T - bytesAvailable this) ->
        write T v this = (Throw CapacityExceeded, this)).
Proof.
  split; [done|]. split; [vm_compute; split; discriminate|].
  split; [|split].
  - intros iconv o this [_ Hm]. split.
    + apply BufFacts.length_bounds.
    + by apply exec_length_max.
  - apply ensureCapacity_exceed.
  - apply write_exceed.
Qed.

Lemma length_within_capacity_witness :
  0 <= get_length fourBytesAtOne <= MAX_CAPACITY
  /\ 0 <= get_length
            (snd (exec sampleIconv (TypedWrite TLong 7) fourBytesAtOne))
     <= MAX_CAPACITY
  /\ bytesAvailable atCeiling < byteWidth TByte
  /\ MAX_CAPACITY
     < get_length atCeiling + (byteWidth TByte - bytesAvailable atCeiling)
  /\ write TByte 0 atCeiling = (Throw CapacityExceeded, atCeiling).
Proof.
  assert (H1 : 0 <= get_length fourBytesAtOne <= MAX_CAPACITY)
    by (vm_compute; split; discriminate).
  assert (H2 : bytesAvailable atCeiling < byteWidth TByte) by reflexivity.
  assert (H3 : MAX_CAPACITY
               < get_length atCeiling
                 + (byteWidth TByte - bytesAvailable atCeiling))
    by reflexivity.
  destruct length_within_capacity as (_ & _ & Hinv & _ & Hw).
  split; [exact H1|].
  split; [exact (Hinv sampleIconv (TypedWrite TLong 7) fourBytesAtOne H1)|].
  split; [exact H2|]. split; [exact H3|].
  exact (Hw TByte 0 atCeiling H2 H3).
Defined.

(** ** C9 *)

(** C9: for every type of width at least 2 and every representable
    value, the write succeeds under either byte order from a state
    whose stream is the constructor's view with room below the ceiling;
    whenever it succeeds under big-endian mode it succeeds under
    little-endian mode from the same state, and the bytes stored under
    big-endian mode are the reverse of the bytes stored under
    little-endian mode; on a fresh buffer
    [writeUnsignedInt(0x12345678)] stores [12 34 56 78] under [BE] and
    [78 56 34 12] under [LE]. *)
Theorem big_endian_is_reversed_little_endian :
  (forall (T : prim) (v : val T) (e : Endian) (this : DynBuffer),
     representable T v ->
     0 <= position this ->
     window (stream this) = Tracking ->
     position this + byteWidth T <= MAX_CAPACITY ->
     exists this', write T v (with_endian e this) = (Ok tt, this'))
  /\ (forall (T : prim) (v : val T) (this thisBE : DynBuffer),
        2 <= byteWidth T ->
        representable T v ->
        write T v (with_endian BE this) = (Ok tt, thisBE) ->
        exists thisLE,
          write T v (with_endian LE this) = (Ok tt, thisLE)
          /\ bytesAt thisBE (position this) (byteWidth T)
             = rev (bytesAt thisLE (position this) (byteWidth T)))
  /\ Buf.bytes (stream (snd (writeUnsignedInt 305419896 constructor)))
     = [x12; x34; x56; x78]
  /\ Buf.bytes (stream (snd (writeUnsignedInt 305419896
                               (with_endian LE constructor))))
     = [x78; x56; x34; x12].
Proof.
  split; [|split; [|split; reflexivity]].
  - intros T v e this Hv Hp Hw Hmax.
    apply write_succeeds; [done|done|]. right. done.
  - intros T v this thisBE Hw Hv E.
    destruct (write_succeeds_either T v BE LE this thisBE Hw E)
      as [thisLE E'].
    exists thisLE. split; [done|].
    by rewrite (write_bytes T BE v this thisBE Hw E),
      (write_bytes T LE v this thisLE Hw E').
Qed.

Lemma big_endian_is_reversed_little_endian_witness :
  2 <= byteWidth TShort
  /\ representable TShort (-2)
  /\ bytesAt (snd (write TShort (-2) (with_endian BE fourBytesAtOne)))
             (position fourBytesAtOne) (byteWidth TShort)
     = [xff; xfe]
  /\ exists thisLE,
       write TShort (-2) (with_endian LE fourBytesAtOne) = (Ok tt, thisLE)
       /\ [xff; xfe]
          = rev (bytesAt thisLE (position fourBytesAtOne)
                         (byteWidth TShort)).
Proof.
  assert (H1 : 2 <= byteWidth TShort) by (vm_compute; discriminate).
  assert (H2 : representable TShort (-2)) by (simpl; lia).
  split; [exact H1|]. split; [exact H2|]. split; [reflexivity|].
  exact (proj1 (proj2 big_endian_is_reversed_little_endian) TShort (-2)
           fourBytesAtOne _ H1 H2 eq_refl).
Defined.

(** ** C10 *)

(** C10: [writeBytes] and [readBytes] return nothing and leave the
    whole state (stream, position, byte order) as it was, whatever
    their arguments; and [length = n] with [n] above the current length
    leaves the state as it was. *)
Theorem stubs_change_nothing (this : DynBuffer) :
  (forall (bytes : list byte) (position length : Z),
     writeBytes bytes position length this = (Ok tt, this)
     /\ readBytes bytes position length this = (Ok tt, this))
  /\ (forall n : Z,
        get_length this < n -> set_length n this = (Ok tt, this)).
Proof.
  split; [done|]. intros n Hn. unfold set_length, get_length in *.
  by destruct (Z.ltb_spec (Buf.length (stream this)) n); [|lia].
Qed.

Lemma stubs_change_nothing_witness :
  get_length fourBytesAtOne < 10
  /\ set_length 10 fourBytesAtOne = (Ok tt, fourBytesAtOne)
  /\ writeBytes [x68; x69] 0 2 fourBytesAtOne = (Ok tt, fourBytesAtOne).
Proof.
  assert (H : get_length fourBytesAtOne < 10) by reflexivity.
  split; [exact H|].
  split; [exact (proj2 (stubs_change_nothing fourBytesAtOne) 10 H)|].
  exact (proj1 (proj1 (stubs_change_nothing fourBytesAtOne)
                  [x68; x69] 0 2)).
Defined.

(** * Further properties *)

(** ** The stored bytes of a write *)

Section StoreEffect.
Import BufFacts BufAccFacts.

Lemma get_Some_lookup s i x :
  Buf.get s i = Some x -> buffer s !! Z.to_nat i = Some x.
Proof. unfold Buf.get. by destruct (_ && _). Qed.

Lemma get_lookup s i :
  0 <= i < Buf.length s -> Buf.get s i = buffer s !! Z.to_nat i.
Proof.
  intros Hi. unfold Buf.get.
  destruct (Z.leb_spec 0 i), (Z.ltb_spec i (Buf.length s)); try lia; done.
Qed.

Lemma window_set s i b : window (Buf.set s i b) = window s.
Proof. unfold Buf.set. by destruct (_ && _). Qed.

Lemma lookup_buffer_set_ne s i b (j : nat) :
  i <> Z.of_nat j -> buffer (Buf.set s i b) !! j = buffer s !! j.
Proof.
  intros Hij. unfold Buf.set.
  destruct ((0 <=? i) && (i <? Buf.length s)) eqn:Hi; [|done]. simpl.
  apply andb_prop in Hi as [Hi _]. apply Z.leb_le in Hi.
  apply list_lookup_insert_ne. lia.
Qed.


Lemma window_storeLE w : forall v offset s,
  window (Buf.storeLE w v offset s) = window s.
Proof.
  induction w as [|w IH]; intros; simpl; [done|]. by rewrite IH, window_set.
Qed.

Lemma window_storeBE w : forall v offset s,
  window (Buf.storeBE w v offset s) = window s.
Proof.
  induction w as [|w IH]; intros; simpl; [done|]. by rewrite IH, window_set.
Qed.



Lemma lookup_buffer_storeLE_out w : forall v offset s (j : nat),
  Z.of_nat j < offset \/ offset + Z.of_nat w <= Z.of_nat j ->
  buffer (Buf.storeLE w v offset s) !! j = buffer s !! j.
Proof.
  induction w as [|w IH]; intros v offset s j Hj; simpl; [done|].
  rewrite IH by lia. apply lookup_buffer_set_ne. lia.
Qed.

Lemma lookup_buffer_storeBE_out w : forall v offset s (j : nat),
  Z.of_nat j < offset \/ offset + Z.of_nat w <= Z.of_nat j ->
  buffer (Buf.storeBE w v offset s) !! j = buffer s !! j.
Proof.
  induction w as [|w IH]; intros v offset s j Hj; simpl; [done|].
  rewrite IH by lia. apply lookup_buffer_set_ne. lia.
Qed.

Lemma take_ext {A} (l l' : list A) n :
  (forall j, (j < n)%nat -> l' !! j = l !! j) -> take n l' = take n l.
Proof.
  intros H. apply list_eq. intros j.
  destruct (decide (j < n)%nat).
  - rewrite !lookup_take_lt by done. auto.
  - rewrite !lookup_take_ge by lia. done.
Qed.

Lemma drop_ext {A} (l l' : list A) n :
  (forall j, (n <= j)%nat -> l' !! j = l !! j) -> drop n l' = drop n l.
Proof.
  intros H. apply list_eq. intros j. rewrite !lookup_drop. apply H. lia.
Qed.

Lemma split3 {A} (l : list A) (p w : nat) :
  l = take p l ++ take w (drop p l) ++ drop (p + w) l.
Proof.
  rewrite <- (take_drop p l) at 1. f_equal.
  rewrite <- (take_drop w (drop p l)) at 1. f_equal.
  by rewrite drop_drop.
Qed.

Lemma buffer_store e w v offset s :
  0 <= offset -> offset + Z.of_nat w <= Buf.length s ->
  buffer (Buf.store e w v offset s)
  = take (Z.to_nat offset) (buffer s)
    ++ match e with
       | Some BE => rev (Buf.octets w v)
       | _ => Buf.octets w v
       end
    ++ drop (Z.to_nat offset + w) (buffer s).
Proof.
  intros H0 H1.
  rewrite (split3 (buffer (Buf.store e w v offset s)) (Z.to_nat offset) w).
  f_equal; [|f_equal].
  - apply take_ext. intros j Hj.
    destruct e as [[]|]; simpl;
      (apply lookup_buffer_storeLE_out || apply lookup_buffer_storeBE_out);
      lia.
  - pose proof (bytes_storeLE w v offset s H0 H1) as HL.
    pose proof (bytes_storeBE w v offset s H0 H1) as HB.
    unfold Buf.subarray_bytes in HL, HB.
    rewrite length_storeLE in HL. rewrite length_storeBE in HB.
    rewrite !clamp_in in HL, HB by lia.
    replace (Z.to_nat (Z.max (offset + Z.of_nat w - offset) 0)) with w
      in HL, HB by lia.
    by destruct e as [[]|].
  - apply drop_ext. intros j Hj.
    destruct e as [[]|]; simpl;
      (apply lookup_buffer_storeLE_out || apply lookup_buffer_storeBE_out);
      lia.
Qed.

Lemma window_store e w v offset s :
  window (Buf.store e w v offset s) = window s.
Proof.
  destruct e as [[]|]; simpl; auto using window_storeLE, window_storeBE.
Qed.

End StoreEffect.

Section WriteEffect.
Import BufFacts BufAccFacts.

Lemma ensureCapacity_unfold bytes this :
  ensureCapacity bytes this =
  if bytesAvailable this <? bytes then
    match Buf.resize (stream this) (position this + bytes) with
    | Ok stream' =>
        (Ok tt, mkDynBuffer stream' (position this) (endian this))
    | Throw e => (Throw e, this)
    end
  else (Ok tt, this).
Proof.
  unfold ensureCapacity, bytesAvailable.
  replace (Buf.length (stream this)
           + (bytes - (Buf.length (stream this) - position this)))
    with (position this + bytes) by lia.
  done.
Qed.

Lemma store_wire T v this :
  match suffix (byteWidth T) this with
  | Some BE =>
      rev (Buf.octets (Buf.width (fn_of T))
                      (BufAcc.bits (fn_of T) (toArg T v)))
  | _ => Buf.octets (Buf.width (fn_of T)) (BufAcc.bits (fn_of T) (toArg T v))
  end = wire T (endian this) v.
Proof. unfold wire, suffix. by destruct T, (endian this). Qed.

Lemma length_wire T e v : Z.of_nat (List.length (wire T e v)) = byteWidth T.
Proof.
  unfold wire. rewrite <- width_prim.
  destruct e; by rewrite ?length_rev, length_octets.
Qed.

Lemma Buffer_eta s : s = mkBuffer (buffer s) (window s).
Proof. by destruct s. Qed.

(** What a successful typed write leaves behind, in any state. *)
Lemma write_Ok_effect T v this this' :
  write T v this = (Ok tt, this') ->
  let s1 := stream (snd (ensureCapacity (byteWidth T) this)) in
  0 <= position this
  /\ position this + byteWidth T <= Buf.length s1
  /\ BufAcc.in_range (fn_of T) (toArg T v) = true
  /\ this' =
     mkDynBuffer
       (mkBuffer
          (take (Z.to_nat (position this)) (buffer s1)
           ++ wire T (endian this) v
           ++ drop (Z.to_nat (position this + byteWidth T)) (buffer s1))
          (window s1))
       (position this + byteWidth T) (endian this).
Proof.
  rewrite write_unfold.
  destruct (ensureCapacity _ this) as [[[]|e] this1]; [|done]. simpl.
  rewrite write_spec.
  destruct (BufAcc.in_range _ _); [|done].
  destruct (Buf.checkBounds _ _ _) eqn:Hb; [|done].
  apply checkBounds_spec in Hb as [H0 H1]; [|apply width_pos].
  intros [= <-]. rewrite width_prim in H1.
  split; [done|]. split; [done|]. split; [done|].
  f_equal. rewrite (Buffer_eta (Buf.store _ _ _ _ _)).
  rewrite window_store, buffer_store by (rewrite ?width_prim; done).
  rewrite store_wire. do 4 f_equal. rewrite <- width_prim. lia.
Qed.

(** A typed write on the view the constructor made. *)
Lemma write_tracking T v this :
  window (stream this) = Tracking ->
  0 <= position this ->
  position this + byteWidth T <= MAX_CAPACITY ->
  representable T v ->
  write T v this =
  (Ok tt,
   mkDynBuffer
     (mkBuffer
        (resize (Z.to_nat (position this)) x00 (buffer (stream this))
         ++ wire T (endian this) v
         ++ drop (Z.to_nat (position this + byteWidth T))
                 (buffer (stream this)))
        Tracking)
     (position this + byteWidth T) (endian this)).
Proof.
  intros Hw Hp Hmax Hv.
  destruct (write_succeeds T v this Hv Hp) as [this' E]; [by right|].
  rewrite E. destruct (write_Ok_effect T v this this' E) as (_ & _ & _ & ->).
  pose proof (ensureCapacity_frame (byteWidth T) this) as (_ & _ & Hw').
  rewrite Hw', Hw. do 3 f_equal.
  assert (Hbw : 0 < byteWidth T) by (by destruct T).
  rewrite ensureCapacity_unfold.
  destruct (Z.ltb_spec (bytesAvailable this) (byteWidth T)) as [Hlt|Hge].
  - destruct (resize_tracking (stream this) (position this + byteWidth T))
      as (s' & -> & _ & _ & Hb); [done|lia|]. simpl. rewrite Hb.
    unfold bytesAvailable, Buf.length in Hlt. rewrite Hw in Hlt.
    rewrite take_resize_le by lia. f_equal. f_equal.
    rewrite drop_ge by (rewrite length_resize; lia).
    by rewrite drop_ge by lia.
  - simpl. unfold bytesAvailable, Buf.length in Hge. rewrite Hw in Hge.
    by rewrite resize_le by lia.
Qed.

(** A typed write that needs no growth, in any state. *)
Lemma write_in_place T v this :
  0 <= position this ->
  byteWidth T <= bytesAvailable this ->
  representable T v ->
  write T v this =
  (Ok tt,
   mkDynBuffer
     (mkBuffer
        (take (Z.to_nat (position this)) (buffer (stream this))
         ++ wire T (endian this) v
         ++ drop (Z.to_nat (position this + byteWidth T))
                 (buffer (stream this)))
        (window (stream this)))
     (position this + byteWidth T) (endian this)).
Proof.
  intros Hp Hroom Hv.
  destruct (write_succeeds T v this Hv Hp) as [this' E]; [by left|].
  rewrite E. destruct (write_Ok_effect T v this this' E) as (_ & _ & _ & ->).
  by rewrite ensureCapacity_enough.
Qed.

End WriteEffect.

(** The serialised forms of some values. *)
Example wire_examples :
  wire TUnsignedInt BE 305419896 = [x12; x34; x56; x78]
  /\ wire TShort LE (-2) = [xfe; xff]
  /\ wire TBoolean BE true = [x01]
  /\ wire TFloat BE (S754_finite false 12582912 (-23))
     = [x3f; xc0; x00; x00]
  /\ wire TLong LE (-1) = [xff; xff; xff; xff; xff; xff; xff; xff].
Proof. repeat split; reflexivity. Qed.

(** ** Reading a serialised value *)

Section ReadWire.
Import BufFacts BufAccFacts.

Lemma load_of_bytes e w x offset s :
  0 <= offset -> offset + Z.of_nat w <= Buf.length s ->
  take w (drop (Z.to_nat offset) (buffer s))
  = match e with
    | Some BE => rev (Buf.octets w x)
    | _ => Buf.octets w x
    end ->
  Buf.load e w offset s = x mod 2 ^ (8 * Z.of_nat w).
Proof.
  intros H0 H1 Hb.
  assert (Hget : forall i : nat, (i < w)%nat ->
    Buf.get s (offset + Z.of_nat i)
    = match e with
      | Some BE => rev (Buf.octets w x)
      | _ => Buf.octets w x
      end !! i).
  { intros i Hi. rewrite get_lookup by lia. rewrite <- Hb.
    rewrite lookup_take_lt, lookup_drop by done. f_equal. lia. }
  destruct e as [[]|]; simpl.
  - apply loadBE_spec. intros i Hi. rewrite Hget by done.
    rewrite rev_alt. fold (reverse (Buf.octets w x)).
    rewrite reverse_lookup by (rewrite length_octets; lia).
    rewrite length_octets, lookup_octets by lia. do 2 f_equal. lia.
  - apply loadLE_spec. intros i Hi. rewrite Hget by done.
    by apply lookup_octets.
  - apply loadLE_spec. intros i Hi. rewrite Hget by done.
    by apply lookup_octets.
Qed.

(** A typed read where the stream holds the serialised form of a
    value at the cursor. *)
Lemma read_of_wire T v this (pre post : list byte) :
  representable T v ->
  buffer (stream this) = pre ++ wire T (endian this) v ++ post ->
  position this = Z.of_nat (List.length pre) ->
  position this + byteWidth T <= Buf.length (stream this) ->
  read T this =
  (Ok v, mkDynBuffer (stream this) (position this + byteWidth T)
                     (endian this)).
Proof.
  intros Hv Hb Hp Hlen. rewrite read_unfold, read_spec.
  assert (Buf.checkBounds (stream this) (position this)
            (Buf.width (fn_of T)) = true) as ->.
  { apply checkBounds_spec; [apply width_pos|]. rewrite width_prim. lia. }
  rewrite (load_of_bytes _ _ (BufAcc.bits (fn_of T) (toArg T v)));
    [|lia|rewrite width_prim; lia|].
  - by rewrite (unbits_bits _ _ (fits_prim _ _ Hv)), ofArg_toArg.
  - rewrite store_wire, Hb, Hp, Nat2Z.id, drop_app_length.
    apply take_app_length'.
    pose proof (length_wire T (endian this) v) as Hl.
    rewrite <- width_prim in Hl. lia.
Qed.

End ReadWire.

(** ** Records: fields written and read one after the other *)

Section Records.
Import BufFacts BufAccFacts.

Lemma write_append T v this :
  window (stream this) = Tracking ->
  position this = get_length this ->
  get_length this + byteWidth T <= MAX_CAPACITY ->
  representable T v ->
  write T v this =
  (Ok tt,
   mkDynBuffer
     (mkBuffer (buffer (stream this) ++ wire T (endian this) v) Tracking)
     (get_length this + byteWidth T) (endian this)).
Proof.
  intros Hw Hp Hmax Hv.
  pose proof (length_bounds (stream this)) as Hb.
  assert (Hl : get_length this
               = Z.of_nat (List.length (buffer (stream this)))).
  { unfold get_length, Buf.length. by rewrite Hw. }
  assert (Hbw : 0 < byteWidth T) by (by destruct T).
  rewrite write_tracking by (try done; unfold get_length in *; lia).
  rewrite Hp, Hl, Nat2Z.id, resize_all.
  rewrite drop_ge by lia. by rewrite app_nil_r.
Qed.

Lemma length_wireAll_cons e (f : field) fields :
  Z.of_nat (List.length (wireAll e (f :: fields)))
  = byteWidth (projT1 f) + Z.of_nat (List.length (wireAll e fields)).
Proof.
  unfold wireAll. simpl. rewrite length_app, Nat2Z.inj_add.
  by rewrite length_wire.
Qed.

Lemma writeAll_append fields : forall this,
  window (stream this) = Tracking ->
  position this = get_length this ->
  get_length this + Z.of_nat (List.length (wireAll (endian this) fields))
  <= MAX_CAPACITY ->
  Forall fieldOk fields ->
  writeAll fields this =
  (Ok tt,
   mkDynBuffer
     (mkBuffer (buffer (stream this) ++ wireAll (endian this) fields)
               Tracking)
     (get_length this
      + Z.of_nat (List.length (wireAll (endian this) fields)))
     (endian this)).
Proof.
  induction fields as [|[T v] fields IH]; intros this Hw Hp Hmax Hok.
  - simpl. unfold ret, wireAll. simpl.
    rewrite app_nil_r, Z.add_0_r, <- Hp, <- Hw.
    rewrite <- Buffer_eta. by destruct this.
  - apply Forall_cons in Hok as [Hv Hok].
    rewrite length_wireAll_cons in Hmax. simpl in Hmax.
    pose proof (Nat2Z.is_nonneg
      (List.length (wireAll (endian this) fields))).
    simpl. unfold bind.
    rewrite write_append by (try done; lia).
    rewrite IH; simpl; try done.
    + rewrite length_wireAll_cons. simpl.
      unfold wireAll. simpl. rewrite <- app_assoc.
      do 2 f_equal. unfold get_length, Buf.length. simpl.
      rewrite length_app, Nat2Z.inj_add, length_wire.
      unfold get_length, Buf.length. rewrite Hw. lia.
    + unfold get_length, Buf.length. simpl.
      rewrite length_app, Nat2Z.inj_add, length_wire.
      unfold get_length, Buf.length. rewrite Hw. lia.
    + unfold get_length, Buf.length. simpl.
      rewrite length_app, Nat2Z.inj_add, length_wire.
      unfold get_length, Buf.length in *. rewrite Hw in *. lia.
Qed.

Lemma readAll_wire fields : forall this (pre post : list byte),
  Forall fieldOk fields ->
  buffer (stream this) = pre ++ wireAll (endian this) fields ++ post ->
  position this = Z.of_nat (List.length pre) ->
  position this + Z.of_nat (List.length (wireAll (endian this) fields))
  <= Buf.length (stream this) ->
  readAll (map (fun f : field => projT1 f) fields) this =
  (Ok fields,
   mkDynBuffer (stream this)
     (position this
      + Z.of_nat (List.length (wireAll (endian this) fields)))
     (endian this)).
Proof.
  induction fields as [|[T v] fields IH]; intros this pre post Hok Hb Hp Hl.
  - simpl. unfold ret, wireAll. simpl. rewrite Z.add_0_r. by destruct this.
  - apply Forall_cons in Hok as [Hv Hok].
    rewrite length_wireAll_cons in Hl. simpl in Hl.
    pose proof (Nat2Z.is_nonneg
      (List.length (wireAll (endian this) fields))).
    simpl. unfold bind at 1.
    rewrite (read_of_wire T v this pre
               (wireAll (endian this) fields ++ post)); try done.
    + unfold bind.
      rewrite (IH _ (pre ++ wire T (endian this) v) post); simpl; try done.
      * unfold ret. rewrite length_wireAll_cons. simpl.
        do 2 f_equal. lia.
      * rewrite Hb. unfold wireAll. simpl. by rewrite <- !app_assoc.
      * rewrite length_app, Nat2Z.inj_add, length_wire. lia.
      * lia.
    + rewrite Hb. unfold wireAll. simpl. by rewrite <- !app_assoc.
    + lia.
Qed.

End Records.

(** ** When typed accesses succeed *)

(** X1: A typed read succeeds exactly when the position is not negative
    and the whole width lies below the length; it then moves the
    cursor by the width and leaves the stream alone.  Otherwise it
    throws [OutOfBounds] and changes nothing. *)
Theorem typed_read_outcome (T : prim) (this : DynBuffer) :
  (0 <= position this /\ position this + byteWidth T <= get_length this ->
   exists v : val T,
     read T this =
     (Ok v, mkDynBuffer (stream this) (position this + byteWidth T)
                        (endian this)))
  /\ (~ (0 <= position this
         /\ position this + byteWidth T <= get_length this) ->
      read T this = (Throw OutOfBounds, this)).
Proof.
  rewrite read_unfold, BufAccFacts.read_spec. split.
  - intros H.
    assert (Buf.checkBounds (stream this) (position this)
              (Buf.width (fn_of T)) = true) as ->.
    { apply BufFacts.checkBounds_spec; [apply BufAccFacts.width_pos|].
      by rewrite width_prim. }
    by eexists.
  - intros H. destruct (Buf.checkBounds _ _ _) eqn:Hb; [|done].
    apply BufFacts.checkBounds_spec in Hb; [|apply BufAccFacts.width_pos].
    rewrite width_prim in Hb. done.
Qed.

Lemma typed_read_outcome_witness :
  (0 <= position fourBytesAtOne
   /\ position fourBytesAtOne + byteWidth TShort
      <= get_length fourBytesAtOne)
  /\ (exists v,
        read TShort fourBytesAtOne =
        (Ok v, mkDynBuffer (stream fourBytesAtOne) 3 BE))
  /\ ~ (0 <= position atCeiling
        /\ position atCeiling + byteWidth TByte <= get_length atCeiling)
  /\ read TByte atCeiling = (Throw OutOfBounds, atCeiling).
Proof.
  assert (H1 : 0 <= position fourBytesAtOne
               /\ position fourBytesAtOne + byteWidth TShort
                  <= get_length fourBytesAtOne)
    by (vm_compute; split; discriminate).
  assert (H2 : ~ (0 <= position atCeiling
                  /\ position atCeiling + byteWidth TByte
                     <= get_length atCeiling))
    by (vm_compute; intros [_ H]; apply H; reflexivity).
  split; [exact H1|].
  split; [exact (proj1 (typed_read_outcome TShort fourBytesAtOne) H1)|].
  split; [exact H2|].
  exact (proj2 (typed_read_outcome TByte atCeiling) H2).
Defined.

(** X2: On the view the constructor made, with the length within the
    ceiling, a typed write of a representable value has three possible
    outcomes, decided by the position alone: success when
    [0 <= position] and [position + width <= 2 ^ 30]; [OutOfBounds]
    when the position is negative; [CapacityExceeded], with nothing
    changed, when [position + width] is above the ceiling. *)
Theorem typed_write_outcome (T : prim) (v : val T) (this : DynBuffer) :
  window (stream this) = Tracking ->
  get_length this <= MAX_CAPACITY ->
  representable T v ->
  (0 <= position this ->
   position this + byteWidth T <= MAX_CAPACITY ->
   exists this', write T v this = (Ok tt, this'))
  /\ (position this < 0 -> fst (write T v this) = Throw OutOfBounds)
  /\ (0 <= position this ->
      MAX_CAPACITY < position this + byteWidth T ->
      write T v this = (Throw CapacityExceeded, this)).
Proof.
  intros Hw Hlen Hv. split; [|split].
  - intros Hp Hmax. apply write_succeeds; auto.
  - intros Hneg. rewrite write_unfold.
    destruct (ensureCapacity _ this) as [[[]|e] this1] eqn:E.
    + rewrite BufAccFacts.write_spec.
      rewrite (BufAccFacts.fits_in_range _ _ (fits_prim _ _ Hv)).
      destruct (Buf.checkBounds _ _ _) eqn:Hb; [|done].
      apply BufFacts.checkBounds_spec in Hb;
        [lia|apply BufAccFacts.width_pos].
    + exfalso. revert E. rewrite ensureCapacity_unfold.
      destruct (_ <? _) eqn:Hlt; [|done].
      apply Z.ltb_lt in Hlt.
      pose proof (BufFacts.length_bounds (stream this)).
      assert (Hbw : byteWidth T <= 8) by (by destruct T).
      unfold Buf.resize, bytesAvailable in *.
      destruct (Z.ltb_spec (position this + byteWidth T) 0); [lia|].
      destruct (Z.ltb_spec MAX_CAPACITY (position this + byteWidth T));
        [unfold MAX_CAPACITY in *; lia|done].
  - intros Hp Hmax. apply write_exceed; unfold bytesAvailable, get_length in *;
      lia.
Qed.

Lemma typed_write_outcome_witness :
  window (stream atCeiling) = Tracking
  /\ get_length atCeiling <= MAX_CAPACITY
  /\ representable TInt 7
  /\ write TInt 7 atCeiling = (Throw CapacityExceeded, atCeiling)
  /\ fst (write TInt 7 (with_position (-1) atCeiling)) = Throw OutOfBounds
  /\ exists this', write TInt 7 (with_position 3 atCeiling) = (Ok tt, this').
Proof.
  assert (H1 : window (stream atCeiling) = Tracking) by reflexivity.
  assert (H2 : get_length atCeiling <= MAX_CAPACITY)
    by (vm_compute; discriminate).
  assert (H3 : representable TInt 7) by (simpl; lia).
  split; [exact H1|]. split; [exact H2|]. split; [exact H3|].
  split; [|split].
  - apply (proj2 (proj2 (typed_write_outcome TInt 7 atCeiling H1 H2 H3)));
      vm_compute; [discriminate|reflexivity].
  - apply (proj1 (proj2 (typed_write_outcome TInt 7
                           (with_position (-1) atCeiling) H1 H2 H3))).
    reflexivity.
  - apply (proj1 (typed_write_outcome TInt 7
                    (with_position 3 atCeiling) H1 H2 H3));
      vm_compute; discriminate.
Defined.

(** X3: After a successful typed read or write the cursor lies within the
    stream: the access started at a non-negative position and ends at
    or below the length. *)
Theorem cursor_within_after_success (T : prim) (this : DynBuffer) :
  (forall (v : val T) (this' : DynBuffer),
     write T v this = (Ok tt, this') ->
     0 <= position this
     /\ position this' = position this + byteWidth T
     /\ position this' <= get_length this')
  /\ (forall (v : val T) (this' : DynBuffer),
        read T this = (Ok v, this') ->
        0 <= position this
        /\ position this' = position this + byteWidth T
        /\ position this' <= get_length this').
Proof.
  split.
  - intros v this'. rewrite write_unfold.
    destruct (ensureCapacity _ this) as [[[]|e] this1]; [|done].
    rewrite BufAccFacts.write_spec.
    destruct (BufAcc.in_range _ _); [|done].
    destruct (Buf.checkBounds _ _ _) eqn:Hb; [|done].
    apply BufFacts.checkBounds_spec in Hb; [|apply BufAccFacts.width_pos].
    rewrite width_prim in Hb. intros [= <-]. simpl.
    unfold get_length. simpl. rewrite BufFacts.length_store. lia.
  - intros v this'. rewrite read_unfold, BufAccFacts.read_spec.
    destruct (Buf.checkBounds _ _ _) eqn:Hb; [|done].
    apply BufFacts.checkBounds_spec in Hb; [|apply BufAccFacts.width_pos].
    rewrite width_prim in Hb. intros [= _ <-]. simpl.
    unfold get_length. simpl. lia.
Qed.

Lemma cursor_within_after_success_witness :
  write TShort 7 fourBytesAtOne
  = (Ok tt, mkDynBuffer (mkBuffer [x12; x00; x07; x78] Tracking) 3 BE)
  /\ 0 <= position fourBytesAtOne
  /\ 3 <= get_length
            (mkDynBuffer (mkBuffer [x12; x00; x07; x78] Tracking) 3 BE).
Proof.
  assert (E : write TShort 7 fourBytesAtOne
              = (Ok tt, mkDynBuffer (mkBuffer [x12; x00; x07; x78] Tracking)
                                    3 BE)) by reflexivity.
  split; [exact E|].
  destruct (proj1 (cursor_within_after_success TShort fourBytesAtOne)
              7 _ E) as (H0 & _ & H2).
  split; [exact H0|exact H2].
Defined.

(** ** What a typed write stores *)

(** X4: On the view the constructor made, a typed write of a representable
    value at a non-negative position below the ceiling always
    succeeds, and the stream afterwards is: the old bytes before the
    position (padded with zero bytes when the position was beyond the
    old length), then the serialised value, then the old bytes that
    followed.  The length becomes the larger of the old length and
    [position + width]. *)
Theorem typed_write_effect (T : prim) (v : val T) (this : DynBuffer) :
  window (stream this) = Tracking ->
  0 <= position this ->
  position this + byteWidth T <= MAX_CAPACITY ->
  representable T v ->
  write T v this =
  (Ok tt,
   mkDynBuffer
     (mkBuffer
        (resize (Z.to_nat (position this)) x00 (buffer (stream this))
         ++ wire T (endian this) v
         ++ drop (Z.to_nat (position this + byteWidth T))
                 (buffer (stream this)))
        Tracking)
     (position this + byteWidth T) (endian this))
  /\ get_length (snd (write T v this))
     = Z.max (get_length this) (position this + byteWidth T).
Proof.
  intros Hw Hp Hmax Hv.
  rewrite write_tracking by done. split; [done|].
  unfold get_length, Buf.length. simpl. rewrite Hw.
  rewrite !length_app, length_resize, length_drop.
  pose proof (length_wire T (endian this) v). lia.
Qed.

Lemma typed_write_effect_witness :
  window (stream fourBytesAtOne) = Tracking
  /\ 0 <= position (with_position 6 fourBytesAtOne)
  /\ position (with_position 6 fourBytesAtOne) + byteWidth TShort
     <= MAX_CAPACITY
  /\ representable TShort 258
  /\ write TShort 258 (with_position 6 fourBytesAtOne)
     = (Ok tt,
        mkDynBuffer
          (mkBuffer [x12; x34; x56; x78; x00; x00; x01; x02] Tracking)
          8 BE).
Proof.
  assert (H1 : window (stream (with_position 6 fourBytesAtOne)) = Tracking)
    by reflexivity.
  assert (H2 : 0 <= position (with_position 6 fourBytesAtOne))
    by (vm_compute; discriminate).
  assert (H3 : position (with_position 6 fourBytesAtOne) + byteWidth TShort
               <= MAX_CAPACITY) by (vm_compute; discriminate).
  assert (H4 : representable TShort 258) by (simpl; lia).
  split; [exact H1|]. split; [exact H2|]. split; [exact H3|].
  split; [exact H4|].
  exact (proj1 (typed_write_effect TShort 258
                  (with_position 6 fourBytesAtOne) H1 H2 H3 H4)).
Defined.

(** X5: In any state, a typed write of a representable value for which
    the bytes are already there ([0 <= position] and
    [width <= bytesAvailable]) succeeds, overwrites exactly the bytes
    from [position] to [position + width] with the serialised value,
    and keeps the length and the kind of view. *)
Theorem typed_write_in_place (T : prim) (v : val T) (this : DynBuffer) :
  0 <= position this ->
  byteWidth T <= bytesAvailable this ->
  representable T v ->
  write T v this =
  (Ok tt,
   mkDynBuffer
     (mkBuffer
        (take (Z.to_nat (position this)) (buffer (stream this))
         ++ wire T (endian this) v
         ++ drop (Z.to_nat (position this + byteWidth T))
                 (buffer (stream this)))
        (window (stream this)))
     (position this + byteWidth T) (endian this))
  /\ get_length (snd (write T v this)) = get_length this.
Proof.
  intros Hp Hroom Hv. split; [by apply write_in_place|].
  rewrite write_unfold, ensureCapacity_enough by done.
  rewrite BufAccFacts.write_spec.
  destruct (BufAcc.in_range _ _); [|done].
  destruct (Buf.checkBounds _ _ _); [|done].
  unfold get_length. simpl. apply BufFacts.length_store.
Qed.

Lemma typed_write_in_place_witness :
  0 <= position fourBytesAtOne
  /\ byteWidth TUnsignedShort <= bytesAvailable fourBytesAtOne
  /\ representable TUnsignedShort 43981
  /\ write TUnsignedShort 43981 (with_endian LE fourBytesAtOne)
     = (Ok tt,
        mkDynBuffer (mkBuffer [x12; xcd; xab; x78] Tracking) 3 LE).
Proof.
  assert (H1 : 0 <= position (with_endian LE fourBytesAtOne))
    by (vm_compute; discriminate).
  assert (H2 : byteWidth TUnsignedShort
               <= bytesAvailable (with_endian LE fourBytesAtOne))
    by (vm_compute; discriminate).
  assert (H3 : representable TUnsignedShort 43981) by (simpl; lia).
  split; [exact H1|]. split; [exact H2|]. split; [exact H3|].
  exact (proj1 (typed_write_in_place TUnsignedShort 43981
                  (with_endian LE fourBytesAtOne) H1 H2 H3)).
Defined.

(** ** Reading serialised values *)

(** X6: Wherever the bytes came from: if the stream holds the serialised
    form of a representable value of type [T] at the cursor, in the
    current byte order and within the length, the read accessor of [T]
    returns that value and moves the cursor past it. *)
Theorem typed_read_decodes (T : prim) (v : val T) (this : DynBuffer)
    (pre post : list byte) :
  representable T v ->
  buffer (stream this) = pre ++ wire T (endian this) v ++ post ->
  position this = Z.of_nat (List.length pre) ->
  position this + byteWidth T <= get_length this ->
  read T this =
  (Ok v, mkDynBuffer (stream this) (position this + byteWidth T)
                     (endian this)).
Proof. apply read_of_wire. Qed.

Lemma typed_read_decodes_witness :
  representable TUnsignedShort 13398
  /\ buffer (stream fourBytesAtOne)
     = [x12] ++ wire TUnsignedShort BE 13398 ++ [x78]
  /\ position fourBytesAtOne = Z.of_nat (List.length [x12])
  /\ position fourBytesAtOne + byteWidth TUnsignedShort
     <= get_length fourBytesAtOne
  /\ read TUnsignedShort fourBytesAtOne
     = (Ok 13398, mkDynBuffer (stream fourBytesAtOne) 3 BE).
Proof.
  assert (H1 : representable TUnsignedShort 13398) by (simpl; lia).
  assert (H2 : buffer (stream fourBytesAtOne)
               = [x12] ++ wire TUnsignedShort (endian fourBytesAtOne) 13398
                 ++ [x78]) by reflexivity.
  assert (H3 : position fourBytesAtOne = Z.of_nat (List.length [x12]))
    by reflexivity.
  assert (H4 : position fourBytesAtOne + byteWidth TUnsignedShort
               <= get_length fourBytesAtOne) by (vm_compute; discriminate).
  split; [exact H1|]. split; [exact H2|]. split; [exact H3|].
  split; [exact H4|].
  exact (typed_read_decodes TUnsignedShort 13398 fourBytesAtOne
           [x12] [x78] H1 H2 H3 H4).
Defined.

(** ** Records *)

(** X7: Writing fields one after the other at the end of the stream
    appends their serialised forms in order: on the constructor's view
    with the cursor at the end, if every value is representable and the
    total stays within the ceiling, all writes succeed, the stream is
    the old bytes followed by the serialised fields, and the cursor is
    at the new end. *)
Theorem record_write_appends (fields : list field) (this : DynBuffer) :
  window (stream this) = Tracking ->
  position this = get_length this ->
  get_length this + Z.of_nat (List.length (wireAll (endian this) fields))
  <= MAX_CAPACITY ->
  Forall fieldOk fields ->
  writeAll fields this =
  (Ok tt,
   mkDynBuffer
     (mkBuffer (buffer (stream this) ++ wireAll (endian this) fields)
               Tracking)
     (get_length this
      + Z.of_nat (List.length (wireAll (endian this) fields)))
     (endian this)).
Proof. apply writeAll_append. Qed.

Lemma sampleRecord_ok : Forall fieldOk sampleRecord.
Proof.
  repeat constructor; unfold fieldOk; simpl; try lia; reflexivity.
Qed.

Lemma record_write_appends_witness :
  window (stream constructor) = Tracking
  /\ position constructor = get_length constructor
  /\ get_length constructor
     + Z.of_nat (List.length (wireAll (endian constructor) sampleRecord))
     <= MAX_CAPACITY
  /\ Forall fieldOk sampleRecord
  /\ writeAll sampleRecord constructor
     = (Ok tt,
        mkDynBuffer
          (mkBuffer [xff; xff; xff; xfe; x01;
                     xc0; x08; x00; x00; x00; x00; x00; x00] Tracking)
          13 BE).
Proof.
  assert (H1 : window (stream constructor) = Tracking) by reflexivity.
  assert (H2 : position constructor = get_length constructor)
    by reflexivity.
  assert (H3 : get_length constructor
               + Z.of_nat (List.length
                             (wireAll (endian constructor) sampleRecord))
               <= MAX_CAPACITY) by (vm_compute; discriminate).
  split; [exact H1|]. split; [exact H2|]. split; [exact H3|].
  split; [exact sampleRecord_ok|].
  exact (record_write_appends sampleRecord constructor H1 H2 H3
           sampleRecord_ok).
Defined.

(** X8: Round trip of a record: after the fields are appended as above,
    setting the position back to where the first write started and
    reading the same types in the same order returns the values
    written, and leaves the cursor at the end of the record. *)
Theorem record_roundtrip (fields : list field) (this : DynBuffer) :
  window (stream this) = Tracking ->
  position this = get_length this ->
  get_length this + Z.of_nat (List.length (wireAll (endian this) fields))
  <= MAX_CAPACITY ->
  Forall fieldOk fields ->
  (writeAll fields ;;;
   set_position (position this) ;;;
   readAll (map (fun f : field => projT1 f) fields)) this
  = (Ok fields,
     mkDynBuffer
       (mkBuffer (buffer (stream this) ++ wireAll (endian this) fields)
                 Tracking)
       (get_length this
        + Z.of_nat (List.length (wireAll (endian this) fields)))
       (endian this)).
Proof.
  intros Hw Hp Hmax Hok. unfold bind at 1.
  rewrite writeAll_append by done.
  unfold bind, set_position. simpl.
  assert (Hl : get_length this
               = Z.of_nat (List.length (buffer (stream this)))).
  { unfold get_length, Buf.length. by rewrite Hw. }
  rewrite (readAll_wire fields _ (buffer (stream this)) []); simpl.
  - do 2 f_equal. lia.
  - done.
  - by rewrite app_nil_r.
  - lia.
  - unfold Buf.length. simpl. rewrite length_app. lia.
Qed.

Lemma record_roundtrip_witness :
  window (stream constructor) = Tracking
  /\ position constructor = get_length constructor
  /\ get_length constructor
     + Z.of_nat (List.length (wireAll (endian constructor) sampleRecord))
     <= MAX_CAPACITY
  /\ Forall fieldOk sampleRecord
  /\ fst ((writeAll sampleRecord ;;;
           set_position (position constructor) ;;;
           readAll [TInt; TBoolean; TDouble]) constructor)
     = Ok sampleRecord.
Proof.
  assert (H1 : window (stream constructor) = Tracking) by reflexivity.
  assert (H2 : position constructor = get_length constructor)
    by reflexivity.
  assert (H3 : get_length constructor
               + Z.of_nat (List.length
                             (wireAll (endian constructor) sampleRecord))
               <= MAX_CAPACITY) by (vm_compute; discriminate).
  split; [exact H1|]. split; [exact H2|]. split; [exact H3|].
  split; [exact sampleRecord_ok|].
  exact (f_equal fst (record_roundtrip sampleRecord constructor H1 H2 H3
                        sampleRecord_ok)).
Defined.

(** ** Reading with another accessor of the same width *)

Section Reinterpret.
Import BufFacts BufAccFacts.

Lemma read_other_after_write (T T' : prim) (v : val T) this this' :
  byteWidth T = byteWidth T' ->
  write T v this = (Ok tt, this') ->
  read T' (with_position (position this) this') =
  (Ok (ofArg T'
         (BufAcc.unbits (fn_of T')
            (BufAcc.bits (fn_of T) (toArg T v)
             mod 2 ^ (8 * byteWidth T)))),
   mkDynBuffer (stream this') (position this + byteWidth T)
               (endian this')).
Proof.
  intros Hww. rewrite write_unfold.
  destruct (ensureCapacity _ this) as [[[]|e] this1]; [|done].
  rewrite write_spec.
  destruct (BufAcc.in_range _ _); [|done].
  destruct (Buf.checkBounds _ _ _) eqn:Hb; [|done].
  apply checkBounds_spec in Hb as [H0 H1]; [|apply width_pos].
  intros [= <-]. rewrite read_unfold, read_spec.
  assert (Hw : Buf.width (fn_of T') = Buf.width (fn_of T)).
  { apply Nat2Z.inj. by rewrite !width_prim. }
  unfold suffix, with_position, set_position.
  cbn [snd stream position endian].
  rewrite <- Hww, Hw.
  change (if byteWidth T =? 1 then None else Some (endian this))
    with (suffix (byteWidth T) this).
  assert (Buf.checkBounds
            (Buf.store (suffix (byteWidth T) this) (Buf.width (fn_of T))
               (BufAcc.bits (fn_of T) (toArg T v)) (position this)
               (stream this1))
            (position this) (Buf.width (fn_of T)) = true) as ->.
  { apply checkBounds_spec; [apply width_pos|]. by rewrite length_store. }
  rewrite load_store by done. rewrite width_prim. done.
Qed.

Lemma in_range_false T v :
  T <> TFloat -> T <> TDouble -> ~ representable T v ->
  BufAcc.in_range (fn_of T) (toArg T v) = false.
Proof.
  destruct T; simpl; intros H1 H2 H3; try done;
    apply negb_false_iff, orb_true_iff;
    match goal with
    | |- (?a <? ?b) = true \/ (?c <? ?d) = true =>
        destruct (Z.ltb_spec a b); [by left|];
        destruct (Z.ltb_spec c d); [by right|]; lia
    end.
Qed.

End Reinterpret.

(** X9: Signed and unsigned accessors of one width share the byte layout:
    after a successful write of a representable value with the
    unsigned accessor, rewinding and reading with the signed accessor
    returns the two's complement reading of the value ([v] below the
    sign bit, [v - 2 ^ bits] from it on); after a write with the signed
    accessor, the unsigned read returns [v mod 2 ^ bits]. *)
Theorem signedness_is_reinterpreted (this this' : DynBuffer) (v : Z) :
  (representable TUnsignedByte v ->
   write TUnsignedByte v this = (Ok tt, this') ->
   fst (read TByte (with_position (position this) this'))
   = Ok (if v <? 2 ^ 7 then v else v - 2 ^ 8))
  /\ (representable TUnsignedShort v ->
      write TUnsignedShort v this = (Ok tt, this') ->
      fst (read TShort (with_position (position this) this'))
      = Ok (if v <? 2 ^ 15 then v else v - 2 ^ 16))
  /\ (representable TUnsignedInt v ->
      write TUnsignedInt v this = (Ok tt, this') ->
      fst (read TInt (with_position (position this) this'))
      = Ok (if v <? 2 ^ 31 then v else v - 2 ^ 32))
  /\ (representable TUnsignedLong v ->
      write TUnsignedLong v this = (Ok tt, this') ->
      fst (read TLong (with_position (position this) this'))
      = Ok (if v <? 2 ^ 63 then v else v - 2 ^ 64))
  /\ (representable TByte v ->
      write TByte v this = (Ok tt, this') ->
      fst (read TUnsignedByte (with_position (position this) this'))
      = Ok (v mod 2 ^ 8))
  /\ (representable TShort v ->
      write TShort v this = (Ok tt, this') ->
      fst (read TUnsignedShort (with_position (position this) this'))
      = Ok (v mod 2 ^ 16))
  /\ (representable TInt v ->
      write TInt v this = (Ok tt, this') ->
      fst (read TUnsignedInt (with_position (position this) this'))
      = Ok (v mod 2 ^ 32))
  /\ (representable TLong v ->
      write TLong v this = (Ok tt, this') ->
      fst (read TUnsignedLong (with_position (position this) this'))
      = Ok (v mod 2 ^ 64)).
Proof.
  repeat split; intros Hv E.
  - rewrite (read_other_after_write TUnsignedByte TByte v this this' eq_refl E).
    simpl. unfold BufAcc.asIntN. rewrite Z.mod_small by exact Hv. done.
  - rewrite (read_other_after_write TUnsignedShort TShort v this this'
               eq_refl E).
    simpl. unfold BufAcc.asIntN. rewrite Z.mod_small by exact Hv. done.
  - rewrite (read_other_after_write TUnsignedInt TInt v this this' eq_refl E).
    simpl. unfold BufAcc.asIntN. rewrite Z.mod_small by exact Hv. done.
  - rewrite (read_other_after_write TUnsignedLong TLong v this this'
               eq_refl E).
    simpl. unfold BufAcc.asIntN. rewrite Z.mod_small by exact Hv. done.
  - by rewrite (read_other_after_write TByte TUnsignedByte v this this'
                  eq_refl E).
  - by rewrite (read_other_after_write TShort TUnsignedShort v this this'
                  eq_refl E).
  - by rewrite (read_other_after_write TInt TUnsignedInt v this this'
                  eq_refl E).
  - by rewrite (read_other_after_write TLong TUnsignedLong v this this'
                  eq_refl E).
Qed.

Lemma signedness_is_reinterpreted_witness :
  representable TUnsignedByte 200
  /\ fst (read TByte
            (with_position (position constructor)
               (snd (write TUnsignedByte 200 constructor))))
     = Ok (-56)
  /\ representable TShort (-2)
  /\ fst (read TUnsignedShort
            (with_position (position fourBytesAtOne)
               (snd (write TShort (-2) fourBytesAtOne))))
     = Ok 65534.
Proof.
  assert (H1 : representable TUnsignedByte 200) by (simpl; lia).
  assert (H2 : representable TShort (-2)) by (simpl; lia).
  split; [exact H1|]. split.
  - exact (proj1 (signedness_is_reinterpreted constructor _ 200) H1 eq_refl).
  - split; [exact H2|].
    exact (proj1 (proj2 (proj2 (proj2 (proj2 (proj2
             (signedness_is_reinterpreted fourBytesAtOne _ (-2)))))))
             H2 eq_refl).
Defined.

(** X10: The bytes of a floating value read as an integer are its IEEE-754
    bit pattern: after a successful [writeFloat] of a binary32 value
    other than NaN, rewinding and [readUnsignedInt] returns its 32-bit
    pattern; after [writeDouble] of a binary64 value other than NaN,
    [readUnsignedLong] returns its 64-bit pattern. *)
Theorem float_bits_are_readable (this this' : DynBuffer) (x : spec_float) :
  x <> S754_nan ->
  (representable TFloat x ->
   write TFloat x this = (Ok tt, this') ->
   fst (read TUnsignedInt (with_position (position this) this'))
   = Ok (IEEE.to_bits 23 8 x))
  /\ (representable TDouble x ->
      write TDouble x this = (Ok tt, this') ->
      fst (read TUnsignedLong (with_position (position this) this'))
      = Ok (IEEE.to_bits 52 11 x)).
Proof.
  intros _. split; intros Hx E.
  - rewrite (read_other_after_write TFloat TUnsignedInt x this this'
               eq_refl E).
    simpl. rewrite IEEEFacts.round_representable by done.
    by rewrite Z.mod_small by (apply (IEEEFacts.to_bits_range 23 8); done).
  - rewrite (read_other_after_write TDouble TUnsignedLong x this this'
               eq_refl E).
    simpl. rewrite IEEEFacts.round_representable by done.
    by rewrite Z.mod_small by (apply (IEEEFacts.to_bits_range 52 11); done).
Qed.

Lemma float_bits_are_readable_witness :
  S754_finite false 12582912 (-23) <> S754_nan
  /\ representable TFloat (S754_finite false 12582912 (-23))
  /\ fst (read TUnsignedInt
            (with_position (position constructor)
               (snd (write TFloat (S754_finite false 12582912 (-23))
                       constructor))))
     = Ok 1069547520.
Proof.
  assert (H0 : S754_finite false 12582912 (-23) <> S754_nan)
    by discriminate.
  assert (H : representable TFloat (S754_finite false 12582912 (-23)))
    by reflexivity.
  split; [exact H0|]. split; [exact H|].
  exact (proj1 (float_bits_are_readable constructor _
                  (S754_finite false 12582912 (-23)) H0) H eq_refl).
Defined.

(** ** Failing writes *)

(** X11: A typed integer write whose value its type cannot represent
    never succeeds and never moves the cursor.  The capacity check runs
    first: when growth is needed and [position + width] is above the
    ceiling the write throws [CapacityExceeded] and nothing changes; in
    every other case it throws [ValueOutOfRange], with nothing changed
    when the bytes were already there, and after the growth when growth
    was needed and allowed (on the constructor's view the stream has
    then been grown to [position + width]). *)
Theorem out_of_range_write (T : prim) (v : val T) (this : DynBuffer) :
  T <> TFloat -> T <> TDouble -> ~ representable T v ->
  (fst (write T v this) = Throw ValueOutOfRange
   \/ fst (write T v this) = Throw CapacityExceeded)
  /\ position (snd (write T v this)) = position this
  /\ (byteWidth T <= bytesAvailable this ->
      write T v this = (Throw ValueOutOfRange, this))
  /\ (bytesAvailable this < byteWidth T ->
      MAX_CAPACITY < position this + byteWidth T ->
      write T v this = (Throw CapacityExceeded, this))
  /\ (bytesAvailable this < byteWidth T ->
      position this + byteWidth T <= MAX_CAPACITY ->
      fst (write T v this) = Throw ValueOutOfRange
      /\ (window (stream this) = Tracking ->
          get_length (snd (write T v this)) = position this + byteWidth T
          /\ get_length this < get_length (snd (write T v this)))).
Proof.
  intros H1 H2 Hv.
  pose proof (in_range_false T v H1 H2 Hv) as Hr.
  assert (Hthrow : forall this1,
            ensureCapacity (byteWidth T) this = (Ok tt, this1) ->
            write T v this = (Throw ValueOutOfRange, this1)).
  { intros this1 E. by rewrite write_unfold, E, BufAccFacts.write_spec, Hr. }
  split; [|split; [|split; [|split]]].
  - destruct (ensureCapacity (byteWidth T) this) as [[[]|e] this1] eqn:E.
    + left. by rewrite (Hthrow this1).
    + right. rewrite write_unfold, E. simpl.
      pose proof (ensureCapacity_Throw (byteWidth T) this e) as He.
      rewrite E in He. by destruct (He eq_refl) as [-> _].
  - pose proof (write_position T v this) as Hp.
    destruct (ensureCapacity (byteWidth T) this) as [[[]|e] this1] eqn:E.
    + rewrite (Hthrow this1 eq_refl) in Hp |- *. done.
    + revert Hp. rewrite write_unfold, E. done.
  - intros Hroom. apply Hthrow. by apply ensureCapacity_enough.
  - intros Hlt Hmax. apply write_exceed; [done|].
    unfold bytesAvailable, get_length in *. lia.
  - intros Hlt Hmax.
    pose proof (BufFacts.length_bounds (stream this)) as Hb.
    assert (E : exists s',
              Buf.resize (stream this) (position this + byteWidth T) = Ok s').
    { unfold Buf.resize, bytesAvailable in *.
      destruct (Z.ltb_spec (position this + byteWidth T) 0); [lia|].
      destruct (Z.ltb_spec MAX_CAPACITY (position this + byteWidth T));
        [lia|]. by eexists. }
    destruct E as [s' E].
    assert (E1 : ensureCapacity (byteWidth T) this
                 = (Ok tt, mkDynBuffer s' (position this) (endian this))).
    { rewrite ensureCapacity_unfold, E.
      by destruct (Z.ltb_spec (bytesAvailable this) (byteWidth T)); [|lia]. }
    rewrite (Hthrow _ E1). split; [done|]. intros Hw. simpl.
    destruct (BufFacts.resize_tracking (stream this)
                (position this + byteWidth T) Hw) as (s2 & E2 & _ & Hl & _);
      [unfold bytesAvailable in *; lia|].
    rewrite E in E2. injection E2 as <-.
    unfold get_length, bytesAvailable in *. simpl. lia.
Qed.

Lemma out_of_range_write_witness :
  TUnsignedByte <> TFloat /\ TUnsignedByte <> TDouble
  /\ ~ representable TUnsignedByte 256
  /\ position (snd (write TUnsignedByte 256 constructor))
     = position constructor
  /\ write TUnsignedByte 256 fourBytesAtOne
     = (Throw ValueOutOfRange, fourBytesAtOne)
  /\ write TUnsignedByte 256 atCeiling = (Throw CapacityExceeded, atCeiling)
  /\ fst (write TUnsignedByte 256 constructor) = Throw ValueOutOfRange
  /\ get_length (snd (write TUnsignedByte 256 constructor)) = 1.
Proof.
  assert (H1 : TUnsignedByte <> TFloat) by discriminate.
  assert (H2 : TUnsignedByte <> TDouble) by discriminate.
  assert (H3 : ~ representable TUnsignedByte 256) by (simpl; lia).
  split; [exact H1|]. split; [exact H2|]. split; [exact H3|].
  destruct (out_of_range_write TUnsignedByte 256 constructor H1 H2 H3)
    as (_ & Hp & _ & _ & Hc).
  split; [exact Hp|].
  split.
  { apply (proj1 (proj2 (proj2 (out_of_range_write TUnsignedByte 256
                                   fourBytesAtOne H1 H2 H3))));
      vm_compute; discriminate. }
  split.
  { apply (proj1 (proj2 (proj2 (proj2 (out_of_range_write TUnsignedByte
                                          256 atCeiling H1 H2 H3)))));
      vm_compute; reflexivity. }
  assert (Ha : bytesAvailable constructor < byteWidth TUnsignedByte)
    by reflexivity.
  assert (Hb : position constructor + byteWidth TUnsignedByte
               <= MAX_CAPACITY) by (vm_compute; discriminate).
  destruct (Hc Ha Hb) as [Hf Hg].
  split; [exact Hf|].
  exact (proj1 (Hg eq_refl)).
Defined.

(** X12: [writeUTF] cannot write a text whose encoding is longer than
    65535 bytes: the length does not fit the two-byte prefix, so the
    call throws ([ValueOutOfRange], or [CapacityExceeded] when even the
    prefix would cross the ceiling) and the cursor does not move. *)
Theorem writeUTF_rejects_long_text (iconv : Iconv) (value : string)
    (this : DynBuffer) :
  encodingExists iconv "utf8" = true ->
  65535 < Z.of_nat (List.length (encode iconv value "utf8")) ->
  (fst (writeUTF iconv value this) = Throw ValueOutOfRange
   \/ fst (writeUTF iconv value this) = Throw CapacityExceeded)
  /\ position (snd (writeUTF iconv value this)) = position this.
Proof.
  intros Hx Hlong. unfold writeUTF.
  rewrite writeMultiByte_unfold, Hx.
  change (writeUnsignedShort ?n) with (write TUnsignedShort n).
  rewrite write_unfold.
  pose proof (ensureCapacity_frame (byteWidth TUnsignedShort) this)
    as (Hp & _).
  destruct (ensureCapacity _ this) as [[[]|e] this1] eqn:E;
    cbn [fst snd] in Hp.
  - rewrite BufAccFacts.write_spec.
    assert (BufAcc.in_range (fn_of TUnsignedShort)
              (toArg TUnsignedShort
                 (Z.of_nat (List.length (encode iconv value "utf8"))))
            = false) as ->.
    { apply in_range_false; [done|done|]. simpl. lia. }
    simpl. split; [by left|done].
  - pose proof (ensureCapacity_Throw (byteWidth TUnsignedShort) this e)
      as He.
    rewrite E in He. destruct (He eq_refl) as [-> _].
    split; [by right|done].
Qed.

Lemma writeUTF_rejects_long_text_witness :
  encodingExists sampleIconv "utf8" = true
  /\ 65535 < Z.of_nat (List.length (encode sampleIconv longText "utf8"))
  /\ position (snd (writeUTF sampleIconv longText fourBytesAtOne))
     = position fourBytesAtOne.
Proof.
  assert (H1 : encodingExists sampleIconv "utf8" = true) by reflexivity.
  assert (H2 : 65535
               < Z.of_nat (List.length (encode sampleIconv longText "utf8")))
    by (vm_compute; reflexivity).
  split; [exact H1|]. split; [exact H2|].
  exact (proj2 (writeUTF_rejects_long_text sampleIconv longText
                  fourBytesAtOne H1 H2)).
Defined.

(** ** Truncation *)

Section Truncation.
Import BufFacts BufAccFacts.

Lemma set_length_unfold value this :
  value <= get_length this ->
  set_length value this =
  (Ok tt,
   mkDynBuffer
     (mkBuffer (buffer (stream this))
        (Fixed (Z.to_nat (Buf.clamp (get_length this) value))))
     (Buf.clamp (get_length this) value) (endian this))
  /\ 0 <= Buf.clamp (get_length this) value <= get_length this.
Proof.
  intros Hv. unfold set_length, get_length in *.
  destruct (Z.ltb_spec (Buf.length (stream this)) value); [lia|].
  pose proof (length_bounds (stream this)) as Hb.
  assert (Hc : 0 <= Buf.clamp (Buf.length (stream this)) value
               <= Buf.length (stream this)).
  { unfold Buf.clamp. destruct (Z.ltb_spec value 0); lia. }
  split; [|done]. unfold Buf.subarray0.
  replace (Z.max (Buf.clamp (Buf.length (stream this)) value - 0) 0)
    with (Buf.clamp (Buf.length (stream this)) value) by lia.
  do 2 f_equal. unfold Buf.length at 1. simpl.
  destruct (Nat.leb_spec
    (Z.to_nat (Buf.clamp (Buf.length (stream this)) value))
    (List.length (buffer (stream this)))); lia.
Qed.











End Truncation.

(** X13: [clear()] always succeeds and leaves position 0, length 0 and no
    visible byte, whatever the state; calling it twice gives the same
    state as calling it once. *)
Theorem clear_resets (this : DynBuffer) :
  fst (clear this) = Ok tt
  /\ position (snd (clear this)) = 0
  /\ get_length (snd (clear this)) = 0
  /\ Buf.bytes (stream (snd (clear this))) = []
  /\ endian (snd (clear this)) = endian this
  /\ (clear ;;; clear) this = clear this.
Proof.
  assert (H : forall that, clear that =
            (Ok tt, mkDynBuffer (mkBuffer (buffer (stream that)) (Fixed 0))
                                0 (endian that))).
  { intros that. unfold clear, bind, set_position.
    pose proof (BufFacts.length_bounds (stream that)) as Hb.
    destruct (set_length_unfold 0
                (mkDynBuffer (stream that) 0 (endian that))) as [-> _].
    { unfold get_length. simpl. lia. }
    unfold get_length. simpl.
    rewrite BufFacts.clamp_in by lia. done. }
  unfold bind. rewrite !H. simpl. repeat split; try done.
Qed.


Lemma fourBytesCutToTwo_reached :
  snd ((writeUnsignedInt 305419896 ;;; set_length 2) constructor)
  = fourBytesCutToTwo.
Proof. reflexivity. Qed.


(** X15: A negative value assigned to [length] counts from the end: the
    stream keeps its first [length + n] bytes (none when that is
    negative) and the position becomes that new length. *)
Theorem set_length_negative (n : Z) (this : DynBuffer) :
  n < 0 ->
  fst (set_length n this) = Ok tt
  /\ get_length (snd (set_length n this)) = Z.max (get_length this + n) 0
  /\ position (snd (set_length n this)) = Z.max (get_length this + n) 0
  /\ Buf.bytes (stream (snd (set_length n this)))
     = take (Z.to_nat (get_length this + n)) (Buf.bytes (stream this)).
Proof.
  intros Hn.
  pose proof (BufFacts.length_bounds (stream this)) as Hb.
  destruct (set_length_unfold n this) as [-> Hc];
    [unfold get_length; lia|].
  assert (Hcl : Buf.clamp (get_length this) n
                = Z.max (get_length this + n) 0).
  { unfold Buf.clamp. destruct (Z.ltb_spec n 0); [done|lia]. }
  rewrite Hcl in *. simpl. split; [done|].
  assert (Hl : Buf.length
             (mkBuffer (buffer (stream this))
                (Fixed (Z.to_nat (Z.max (get_length this + n) 0))))
           = Z.max (get_length this + n) 0).
  { unfold Buf.length. simpl. unfold get_length in *.
    destruct (Nat.leb_spec
      (Z.to_nat (Z.max (Buf.length (stream this) + n) 0))
      (List.length (buffer (stream this)))); lia. }
  unfold get_length at 1. simpl. split; [done|]. split; [done|].
  unfold Buf.bytes. rewrite Hl. simpl. fold (get_length this).
  rewrite take_take. f_equal. lia.
Qed.

Lemma set_length_negative_witness :
  -1 < 0
  /\ Buf.bytes (stream (snd (set_length (-1) fourBytesAtOne)))
     = [x12; x34; x56]
  /\ position (snd (set_length (-1) fourBytesAtOne)) = 3.
Proof.
  assert (H : -1 < 0) by reflexivity.
  split; [exact H|].
  destruct (set_length_negative (-1) fourBytesAtOne H)
    as (_ & _ & Hp & Hb).
  split; [rewrite Hb; reflexivity|rewrite Hp; reflexivity].
Defined.

(** ** Reading text *)

(** X16: With a known character set, a non-negative position and a
    non-negative count [L] with [position + L] at most [2 ^ 53] (where
    the sum is exact), [readMultiByte(L)] decodes the bytes of the
    stream from the position on, at most [L] of them and fewer (down to
    none) when the stream ends before; whatever it found, it moves the
    cursor by [L] and leaves the stream as it was. *)
Theorem readMultiByte_reads_what_is_there (iconv : Iconv) (L : Z)
    (charSet : string) (this : DynBuffer) :
  encodingExists iconv charSet = true ->
  0 <= position this ->
  0 <= L ->
  position this + L <= 2 ^ 53 ->
  readMultiByte iconv L charSet this =
  (Ok (decode iconv
         (take (Z.to_nat L)
               (drop (Z.to_nat (position this)) (Buf.bytes (stream this))))
         charSet),
   mkDynBuffer (stream this) (position this + L) (endian this)).
Proof.
  apply readMultiByte_forward.
Qed.

Lemma readMultiByte_reads_what_is_there_witness :
  encodingExists sampleIconv "utf8" = true
  /\ 0 <= position fourBytesAtOne
  /\ 0 <= 2
  /\ position fourBytesAtOne + 2 <= 2 ^ 53
  /\ readMultiByte sampleIconv 2 "utf8" fourBytesAtOne
     = (Ok (decode sampleIconv [x34; x56] "utf8"),
        mkDynBuffer (stream fourBytesAtOne) 3 BE).
Proof.
  assert (H1 : encodingExists sampleIconv "utf8" = true) by reflexivity.
  assert (H2 : 0 <= position fourBytesAtOne) by (vm_compute; discriminate).
  assert (H3 : 0 <= 2) by (vm_compute; discriminate).
  assert (H4 : position fourBytesAtOne + 2 <= 2 ^ 53)
    by (vm_compute; discriminate).
  split; [exact H1|]. split; [exact H2|]. split; [exact H3|].
  split; [exact H4|].
  exact (readMultiByte_reads_what_is_there sampleIconv 2 "utf8"%string
           fourBytesAtOne H1 H2 H3 H4).
Defined.

(** X17: [readUTF] reads what a length-prefixed writer lays down: if the
    visible bytes of the stream are, from the cursor on, the two-byte
    unsigned length of a payload in the current byte order followed by
    that payload, [readUTF()] returns the decoding of exactly the
    payload and leaves the cursor right after it.  The stream is
    shorter than [2 ^ 53] bytes, as it is in every state the class
    reaches (its length never exceeds [2 ^ 30]), so that the sums are
    exact. *)
Theorem readUTF_reads_prefixed_text (iconv : Iconv) (this : DynBuffer)
    (pre payload post : list byte) :
  encodingExists iconv "utf8" = true ->
  get_length this <= 2 ^ 53 ->
  Z.of_nat (List.length payload) < 2 ^ 16 ->
  Buf.bytes (stream this)
  = pre
    ++ wire TUnsignedShort (endian this) (Z.of_nat (List.length payload))
    ++ payload ++ post ->
  position this = Z.of_nat (List.length pre) ->
  readUTF iconv this =
  (Ok (decode iconv payload "utf8"),
   mkDynBuffer (stream this)
     (position this + 2 + Z.of_nat (List.length payload)) (endian this)).
Proof.
  intros Hx Hmax Hn Hb Hp.
  unfold get_length in Hmax.
  pose proof (BufFacts.length_bounds (stream this)) as Hlb.
  pose proof (length_wire TUnsignedShort (endian this)
                (Z.of_nat (List.length payload))) as Hlw.
  simpl in Hlw.
  assert (Hlen : Buf.length (stream this)
                 = Z.of_nat (List.length pre) + 2
                   + Z.of_nat (List.length payload)
                   + Z.of_nat (List.length post)).
  { assert (E : List.length (Buf.bytes (stream this))
                = Z.to_nat (Buf.length (stream this))).
    { unfold Buf.bytes. rewrite length_take. lia. }
    rewrite Hb, !length_app in E. lia. }
  unfold readUTF, bind.
  change readUnsignedShort with (read TUnsignedShort).
  rewrite (read_of_wire TUnsignedShort (Z.of_nat (List.length payload))
             this pre
             (payload ++ post
              ++ drop (Z.to_nat (Buf.length (stream this)))
                      (buffer (stream this)))).
  - rewrite readMultiByte_forward;
      [|done|simpl; lia|lia|cbn [position byteWidth]; lia].
    cbn [stream position endian byteWidth].
    assert (Hpay : take (Z.to_nat (Z.of_nat (List.length payload)))
                     (drop (Z.to_nat (position this + 2))
                           (Buf.bytes (stream this))) = payload).
    { rewrite Hb, Hp.
      replace (Z.to_nat (Z.of_nat (List.length pre) + 2))
        with (List.length pre
              + List.length (wire TUnsignedShort (endian this)
                               (Z.of_nat (List.length payload))))%nat by lia.
      rewrite <- drop_drop, drop_app_length, drop_app_length.
      rewrite Nat2Z.id. by rewrite take_app_length. }
    by rewrite Hpay.
  - simpl. lia.
  - rewrite <- (take_drop (Z.to_nat (Buf.length (stream this)))
                  (buffer (stream this))) at 1.
    fold (Buf.bytes (stream this)). rewrite Hb.
    by rewrite <- !app_assoc.
  - done.
  - simpl. lia.
Qed.

Lemma prefixedHi_reached :
  snd ((writeUnsignedShort 2 ;;; writeUnsignedByte 104 ;;;
        writeUnsignedByte 105 ;;; set_position 0) constructor)
  = prefixedHi.
Proof. reflexivity. Qed.

Lemma readUTF_reads_prefixed_text_witness :
  encodingExists sampleIconv "utf8" = true
  /\ get_length prefixedHi <= 2 ^ 53
  /\ Z.of_nat (List.length [x68; x69]) < 2 ^ 16
  /\ Buf.bytes (stream prefixedHi)
     = [] ++ wire TUnsignedShort (endian prefixedHi)
               (Z.of_nat (List.length [x68; x69]))
       ++ [x68; x69] ++ []
  /\ position prefixedHi = Z.of_nat (List.length (@nil byte))
  /\ readUTF sampleIconv prefixedHi
     = (Ok "hi"%string, mkDynBuffer (stream prefixedHi) 4 BE).
Proof.
  assert (H1 : encodingExists sampleIconv "utf8" = true) by reflexivity.
  assert (H0 : get_length prefixedHi <= 2 ^ 53)
    by (vm_compute; discriminate).
  assert (H2 : Z.of_nat (List.length [x68; x69]) < 2 ^ 16) by reflexivity.
  assert (H3 : Buf.bytes (stream prefixedHi)
               = [] ++ wire TUnsignedShort (endian prefixedHi)
                         (Z.of_nat (List.length [x68; x69]))
                 ++ [x68; x69] ++ []) by reflexivity.
  assert (H4 : position prefixedHi = Z.of_nat (List.length (@nil byte)))
    by reflexivity.
  split; [exact H1|]. split; [exact H0|]. split; [exact H2|].
  split; [exact H3|]. split; [exact H4|].
  exact (readUTF_reads_prefixed_text sampleIconv prefixedHi
           [] [x68; x69] [] H1 H0 H2 H3 H4).
Defined.

(** ** What operations leave alone *)

Section Frames.
Import BufFacts BufAccFacts.

Lemma write_keeps_endian T v this :
  endian (snd (write T v this)) = endian this.
Proof.
  rewrite write_unfold.
  pose proof (ensureCapacity_frame (byteWidth T) this) as (_ & He & _).
  destruct (ensureCapacity _ this) as [[[]|e] this1]; simpl in *; [|done].
  by destruct (BufAcc.write _ _ _ _ _).
Qed.

Lemma read_keeps_endian T this : endian (snd (read T this)) = endian this.
Proof. rewrite read_unfold. by destruct (BufAcc.read _ _ _ _). Qed.

Lemma readMultiByte_keeps_endian iconv L charSet this :
  endian (snd (readMultiByte iconv L charSet this)) = endian this.
Proof. rewrite readMultiByte_unfold. by destruct (encodingExists _ _). Qed.

Lemma writeMultiByte_keeps_endian iconv value charSet source this :
  endian (snd (writeMultiByte iconv value charSet source this))
  = endian this.
Proof.
  rewrite writeMultiByte_unfold.
  destruct (encodingExists _ _); [|done]. destruct source; [|done].
  pose proof (write_keeps_endian TUnsignedShort
    (Z.of_nat (List.length (encode iconv value charSet))) this) as H.
  simpl in H. by destruct (writeUnsignedShort _ this) as [[[]|e] this'].
Qed.

Lemma set_length_keeps_endian value this :
  endian (snd (set_length value this)) = endian this.
Proof. unfold set_length. by destruct (_ <? _). Qed.

Lemma read_Throw_unchanged T this e :
  fst (read T this) = Throw e -> snd (read T this) = this.
Proof. rewrite read_unfold. by destruct (BufAcc.read _ _ _ _). Qed.

End Frames.

(** X18: No operation other than the [endian] setter changes the byte
    order, whether it succeeds or throws. *)
Theorem endian_changed_by_setter_only (iconv : Iconv) (o : op)
    (this : DynBuffer) :
  isSetEndian o = false ->
  endian (snd (exec iconv o this)) = endian this.
Proof.
  intros Ho. destruct o; try discriminate Ho; unfold exec;
    rewrite snd_returning.
  - apply set_length_keeps_endian.
  - done.
  - unfold clear, bind, set_position. simpl.
    by rewrite set_length_keeps_endian.
  - apply write_keeps_endian.
  - apply read_keeps_endian.
  - done.
  - done.
  - apply writeMultiByte_keeps_endian.
  - apply readMultiByte_keeps_endian.
  - apply writeMultiByte_keeps_endian.
  - unfold readUTF, bind.
    pose proof (read_keeps_endian TUnsignedShort this) as H.
    change (read TUnsignedShort) with readUnsignedShort in H.
    destruct (readUnsignedShort this) as [[n|e] this']; simpl in H.
    + by rewrite readMultiByte_keeps_endian.
    + done.
  - apply writeMultiByte_keeps_endian.
  - apply readMultiByte_keeps_endian.
Qed.

Lemma endian_changed_by_setter_only_witness :
  isSetEndian (WriteUTF "hi") = false
  /\ endian (snd (exec sampleIconv (WriteUTF "hi")
                    (with_endian LE fourBytesAtOne))) = LE.
Proof.
  assert (H : isSetEndian (WriteUTF "hi") = false) by reflexivity.
  split; [exact H|].
  exact (endian_changed_by_setter_only sampleIconv (WriteUTF "hi")
           (with_endian LE fourBytesAtOne) H).
Defined.

(** X19: No reading operation ([read] of any type, [readBytes],
    [readMultiByte], [readUTF], [readUTFBytes]) changes the stream; and
    with a codec that knows [utf8], a reading operation that throws
    leaves the whole state, cursor included, as it was. *)
Theorem reads_leave_the_stream (iconv : Iconv) (o : op) (this : DynBuffer) :
  isRead o = true ->
  stream (snd (exec iconv o this)) = stream this
  /\ (encodingExists iconv "utf8" = true ->
      forall e, fst (exec iconv o this) = Throw e ->
                snd (exec iconv o this) = this).
Proof.
  intros Ho. destruct o; try discriminate Ho; unfold exec, returning, bind.
  - pose proof (read_keeps_stream T this) as Hs.
    pose proof (read_Throw_unchanged T this) as Ht.
    destruct (read T this) as [[v|e'] this']; simpl in *; split; try done.
    intros _ e _. by apply (Ht e').
  - done.
  - rewrite readMultiByte_unfold.
    by destruct (encodingExists iconv charSet).
  - unfold readUTF, bind.
    pose proof (read_keeps_stream TUnsignedShort this) as Hs.
    pose proof (read_Throw_unchanged TUnsignedShort this) as Ht.
    change (read TUnsignedShort) with readUnsignedShort in Hs, Ht.
    destruct (readUnsignedShort this) as [[n|e'] this']; simpl in *.
    + rewrite readMultiByte_unfold. split.
      * by destruct (encodingExists iconv "utf8").
      * intros Hx. rewrite Hx. simpl. by intros e.
    + split; [done|]. intros _ e _. by apply (Ht e').
  - unfold readUTFBytes. rewrite readMultiByte_unfold.
    by destruct (encodingExists iconv "utf8").
Qed.

Lemma reads_leave_the_stream_witness :
  isRead ReadUTF = true
  /\ stream (snd (exec sampleIconv ReadUTF prefixedHi)) = stream prefixedHi
  /\ encodingExists sampleIconv "utf8" = true
  /\ fst (exec sampleIconv ReadUTF atCeiling) = Throw OutOfBounds
  /\ snd (exec sampleIconv ReadUTF atCeiling) = atCeiling.
Proof.
  assert (H1 : isRead ReadUTF = true) by reflexivity.
  assert (H2 : encodingExists sampleIconv "utf8" = true) by reflexivity.
  assert (H3 : fst (exec sampleIconv ReadUTF atCeiling) = Throw OutOfBounds)
    by reflexivity.
  split; [exact H1|].
  split; [exact (proj1 (reads_leave_the_stream sampleIconv ReadUTF
                          prefixedHi H1))|].
  split; [exact H2|]. split; [exact H3|].
  exact (proj2 (reads_leave_the_stream sampleIconv ReadUTF atCeiling H1)
           H2 OutOfBounds H3).
Defined.

(** ** One-byte accessors *)

(** X20: [readBoolean] is [true] for every non-zero byte: if the byte at
    the cursor is [b], it returns whether [b] differs from [00] and
    moves the cursor by one. *)
Theorem readBoolean_is_nonzero (b : byte) (this : DynBuffer) :
  Buf.get (stream this) (position this) = Some b ->
  readBoolean this =
  (Ok (negb (Byte.eqb b x00)),
   mkDynBuffer (stream this) (position this + 1) (endian this)).
Proof.
  intros Hb. change readBoolean with (read TBoolean).
  rewrite read_unfold, BufAccFacts.read_spec. simpl.
  unfold Buf.checkBounds, Buf.byteAt.
  replace (position this + Z.of_nat 1 - 1) with (position this) by lia.
  rewrite Hb. do 2 f_equal. by destruct b.
Qed.

Lemma readBoolean_is_nonzero_witness :
  Buf.get (stream fourBytesAtOne) (position fourBytesAtOne) = Some x34
  /\ readBoolean fourBytesAtOne
     = (Ok true, mkDynBuffer (stream fourBytesAtOne) 2 BE).
Proof.
  assert (H : Buf.get (stream fourBytesAtOne) (position fourBytesAtOne)
              = Some x34) by reflexivity.
  split; [exact H|].
  exact (readBoolean_is_nonzero x34 fourBytesAtOne H).
Defined.

(** X21: The one-byte accessors (Byte, UnsignedByte, Boolean) do not depend
    on the byte order: under [BE] and under [LE] a write, or a read,
    has the same outcome, stores the same bytes and moves the cursor
    alike. *)
Theorem one_byte_ignores_endian (T : prim) (e : Endian) (this : DynBuffer) :
  byteWidth T = 1 ->
  (forall v : val T,
     write T v (with_endian e this)
     = (fst (write T v this), with_endian e (snd (write T v this))))
  /\ read T (with_endian e this)
     = (fst (read T this), with_endian e (snd (read T this))).
Proof.
  intros Hw. split.
  - intros v. rewrite !write_unfold, ensureCapacity_with_endian.
    unfold suffix. rewrite Hw. simpl.
    destruct (ensureCapacity _ this) as [[[]|err] this1]; simpl; [|done].
    by destruct (BufAcc.write _ _ _ _ _).
  - rewrite !read_unfold. unfold suffix. rewrite Hw. simpl.
    by destruct (BufAcc.read _ _ _ _).
Qed.

Lemma one_byte_ignores_endian_witness :
  byteWidth TByte = 1
  /\ write TByte (-3) (with_endian LE fourBytesAtOne)
     = (Ok tt, mkDynBuffer (mkBuffer [x12; xfd; x56; x78] Tracking) 2 LE)
  /\ fst (read TByte (with_endian LE fourBytesAtOne)) = Ok 52.
Proof.
  assert (H : byteWidth TByte = 1) by reflexivity.
  split; [exact H|].
  destruct (one_byte_ignores_endian TByte LE fourBytesAtOne H) as [Hw Hr].
  split; [rewrite (Hw (-3)); reflexivity|rewrite Hr; reflexivity].
Defined.

(** ** Writing text *)

(** X22: With a known character set, [writeMultiByte] never stores a byte
    of the text.  Without the length prefix it succeeds and changes
    nothing; with the prefix it does exactly what
    [writeUnsignedShort(encoded length)] does, so two texts whose
    encodings have the same length leave the same buffer. *)
Theorem writeMultiByte_stores_no_text (iconv : Iconv)
    (value charSet : string) (this : DynBuffer) :
  encodingExists iconv charSet = true ->
  writeMultiByte iconv value charSet false this = (Ok tt, this)
  /\ writeMultiByte iconv value charSet true this
     = writeUnsignedShort
         (Z.of_nat (List.length (encode iconv value charSet))) this
  /\ (forall value' : string,
        List.length (encode iconv value' charSet)
        = List.length (encode iconv value charSet) ->
        writeMultiByte iconv value' charSet true this
        = writeMultiByte iconv value charSet true this).
Proof.
  intros Hx. rewrite !writeMultiByte_unfold, Hx.
  split; [done|]. split.
  - by destruct (writeUnsignedShort _ this) as [[[]|e] this'].
  - intros value' Hl. by rewrite writeMultiByte_unfold, Hx, Hl.
Qed.

Lemma writeMultiByte_stores_no_text_witness :
  encodingExists sampleIconv "utf8" = true
  /\ writeMultiByte sampleIconv "hi" "utf8" false fourBytesAtOne
     = (Ok tt, fourBytesAtOne)
  /\ List.length (encode sampleIconv "no" "utf8")
     = List.length (encode sampleIconv "hi" "utf8")
  /\ writeMultiByte sampleIconv "no" "utf8" true fourBytesAtOne
     = writeMultiByte sampleIconv "hi" "utf8" true fourBytesAtOne.
Proof.
  assert (H1 : encodingExists sampleIconv "utf8" = true) by reflexivity.
  assert (H2 : List.length (encode sampleIconv "no" "utf8")
               = List.length (encode sampleIconv "hi" "utf8"))
    by reflexivity.
  destruct (writeMultiByte_stores_no_text sampleIconv "hi"%string
              "utf8"%string fourBytesAtOne H1) as (Ha & _ & Hc).
  split; [exact H1|]. split; [exact Ha|]. split; [exact H2|].
  exact (Hc "no"%string H2).
Defined.
